(** * ThreadPool.js: the pool controller of [src/index.js]

    The controller is single-threaded JavaScript: every public method and
    every worker notification runs to completion before the next one starts.
    The embedding below keeps the three collections of the class
    ([queue], [freeWorkers], [workers]), the two handler slots of every
    [Worker] object, the promises handed out by [dispatch], and a log of the
    effects the controller performs, in program order. *)

From stdpp Require Import gmap list.
From Stdlib Require Import QArith Qround.

Open Scope Z_scope.

(** ** Numbers accepted by the constructor

    [size] is a JavaScript number.  A finite number is represented by the
    rational it denotes; the three non-finite values are kept apart. *)

Inductive jsnum :=
| Num (q : Q)
| NaN
| PosInf
| NegInf.

(** [x < 1] as JavaScript evaluates it: false whenever [x] is [NaN]. *)
Definition lt_one (x : jsnum) : bool :=
  match x with
  | Num q => negb (Qle_bool 1 q)
  | NegInf => true
  | NaN | PosInf => false
  end.

(** [ToLength], applied by [Array.from] to the [length] property. *)
Definition to_length (x : jsnum) : Z :=
  match x with
  | Num q => Z.min (Z.max (Qfloor q) 0) (2 ^ 53 - 1)
  | PosInf => 2 ^ 53 - 1
  | NaN | NegInf => 0
  end.

Definition is_positive_integer (x : jsnum) : Prop :=
  match x with
  | Num q => exists z : Z, 0 < z /\ (q == inject_Z z)%Q
  | _ => False
  end.

(** ** Data *)

Definition worker := nat.
Definition promise := nat.

(** Which values the structured clone algorithm accepts: [postMessage]
    raises a [DataCloneError] on the others (a function, for one). *)
Class Clonable (JSVal : Type) := clonable : JSVal -> bool.

Section Pool.

Variable JSVal : Type.
Context {JSVal_clonable : Clonable JSVal}.

(** What a promise is rejected with: the [TypeError('threadpool disposed')]
    built by [dispose], the [error] field of a worker's error event, or the
    [DataCloneError] that left the executor of [dispatch]. *)
Inductive reason :=
| ThreadpoolDisposed
| WorkerError (e : JSVal)
| DataCloneError.

Inductive settlement :=
| Fulfilled (v : JSVal)
| Rejected (r : reason).

(** An entry [[resolve, reject, args]] of [queue]; the pair of settlers is
    identified by the promise it belongs to. *)
Record call := Call {
  call_promise : promise;
  call_args : list JSVal
}.

(** The variables captured by the two arrow functions built in [start]. *)
Record closure := Closure {
  cl_worker : worker;
  cl_promise : promise
}.

Inductive event :=
| EvTerminate (w : worker)                  (* x.terminate() *)
| EvDetach (w : worker)                     (* onmessage = null; onerror = null *)
| EvAttach (w : worker) (p : promise)       (* onmessage = ...; onerror = ... *)
| EvPost (w : worker) (args : list JSVal)   (* worker.postMessage(args) called *)
| EvQueued (p : promise)                    (* queue.push([resolve, reject, args]) *)
| EvResolve (p : promise) (v : JSVal)       (* resolve(e.data) *)
| EvReject (p : promise) (r : reason).      (* reject(...) *)

Record pool := Pool {
  queue : list call;
  freeWorkers : list worker;
  workers : list worker;                (* a Set, in insertion order *)
  onmessage : gmap worker closure;      (* absent: null *)
  onerror : gmap worker closure;        (* absent: null *)
  promises : gmap promise settlement;   (* absent: still pending *)
  next_promise : promise;               (* identity of the next new Promise *)
  trace : list event                    (* oldest first *)
}.

(** *** Field updates *)

Definition set_queue (q : list call) (s : pool) : pool :=
  Pool q (freeWorkers s) (workers s) (onmessage s) (onerror s)
       (promises s) (next_promise s) (trace s).

Definition set_freeWorkers (f : list worker) (s : pool) : pool :=
  Pool (queue s) f (workers s) (onmessage s) (onerror s)
       (promises s) (next_promise s) (trace s).

Definition set_workers (ws : list worker) (s : pool) : pool :=
  Pool (queue s) (freeWorkers s) ws (onmessage s) (onerror s)
       (promises s) (next_promise s) (trace s).

Definition set_onmessage (w : worker) (h : option closure) (s : pool) : pool :=
  Pool (queue s) (freeWorkers s) (workers s)
       (match h with Some c => <[w := c]> (onmessage s) | None => delete w (onmessage s) end)
       (onerror s) (promises s) (next_promise s) (trace s).

Definition set_onerror (w : worker) (h : option closure) (s : pool) : pool :=
  Pool (queue s) (freeWorkers s) (workers s) (onmessage s)
       (match h with Some c => <[w := c]> (onerror s) | None => delete w (onerror s) end)
       (promises s) (next_promise s) (trace s).

Definition emit (e : event) (s : pool) : pool :=
  Pool (queue s) (freeWorkers s) (workers s) (onmessage s) (onerror s)
       (promises s) (next_promise s) (trace s ++ [e]).

(** Settling a promise that is already settled has no effect. *)
Definition settle (p : promise) (o : settlement) (s : pool) : pool :=
  Pool (queue s) (freeWorkers s) (workers s) (onmessage s) (onerror s)
       (match promises s !! p with
        | None => <[p := o]> (promises s)
        | Some _ => promises s
        end)
       (next_promise s) (trace s).

Definition resolve (p : promise) (v : JSVal) (s : pool) : pool :=
  settle p (Fulfilled v) (emit (EvResolve p v) s).

Definition reject (p : promise) (r : reason) (s : pool) : pool :=
  settle p (Rejected r) (emit (EvReject p r) s).

(** [Array.prototype.pop]: the last element and what is left. *)
Definition pop (l : list worker) : option (list worker * worker) :=
  match reverse l with
  | [] => None
  | w :: r => Some (reverse r, w)
  end.

(** ** The methods *)

(** A method either returns or is left by an uncaught exception; in both
    cases the object keeps the state reached so far. *)
Inductive result :=
| Done (s : pool)
| Raised (s : pool).

Definition state_of (r : result) : pool :=
  match r with Done s | Raised s => s end.

(** [worker.postMessage(args)], line 88: the call is logged; when one of
    the arguments cannot be cloned it raises a [DataCloneError] and nothing
    is sent. *)
Definition postMessage (w : worker) (args : list JSVal) (s : pool) : result :=
  let s := emit (EvPost w args) s in
  if forallb clonable args then Done s else Raised s.

(** [start(resolve, reject, args)], lines 77-93.  An exception of
    [postMessage] leaves [start] with the worker taken and its handlers
    installed. *)
Definition start (c : call) (s : pool) : result :=
  match pop (freeWorkers s) with
  | Some (rest, w) =>
      let h := Closure w (call_promise c) in
      let s := set_freeWorkers rest s in
      let s := set_onmessage w (Some h) s in
      let s := set_onerror w (Some h) s in
      let s := emit (EvAttach w (call_promise c)) s in
      postMessage w (call_args c) s
  | None =>
      Done (emit (EvQueued (call_promise c)) (set_queue (queue s ++ [c]) s))
  end.

(** [onFinish(worker)], lines 69-76. *)
Definition onFinish (w : worker) (s : pool) : result :=
  let s := set_onmessage w None s in
  let s := set_onerror w None s in
  let s := emit (EvDetach w) s in
  let s := set_freeWorkers (freeWorkers s ++ [w]) s in
  match queue s with
  | [] => Done s
  | c :: q => start c (set_queue q s)
  end.

(** The arrow function stored in [worker.onmessage], lines 80-83: when
    [onFinish] raises, [resolve] is not reached. *)
Definition message_handler (h : closure) (data : JSVal) (s : pool) : result :=
  match onFinish (cl_worker h) s with
  | Done s => Done (resolve (cl_promise h) data s)
  | Raised s => Raised s
  end.

(** The arrow function stored in [worker.onerror], lines 84-87: when
    [onFinish] raises, [reject] is not reached. *)
Definition error_handler (h : closure) (err : reason) (s : pool) : result :=
  match onFinish (cl_worker h) s with
  | Done s => Done (reject (cl_promise h) err s)
  | Raised s => Raised s
  end.

(** [dispatch(...args)], lines 29-31: the executor runs synchronously, and
    the constructor of [Promise] turns an exception of the executor into a
    rejection of the new promise; this is not a call of [reject] by the
    pool and is not logged.  The promise returned is [next_promise s]. *)
Definition dispatch (args : list JSVal) (s : pool) : pool :=
  let p := next_promise s in
  match start (Call p args)
          (Pool (queue s) (freeWorkers s) (workers s) (onmessage s)
                (onerror s) (promises s) (S p) (trace s)) with
  | Done s => s
  | Raised s => settle p (Rejected DataCloneError) s
  end.

(** [dispose], lines 37-40: the idle workers. *)
Definition dispose_idle (s : pool) : pool :=
  foldl (fun s x => emit (EvTerminate x)
                      (set_workers (filter (fun y => y <> x) (workers s)) s))
        s (freeWorkers s).

(** [dispose], lines 41-42: the waiting calls. *)
Definition dispose_queue (s : pool) : pool :=
  set_queue []
    (foldl (fun s c => reject (call_promise c) ThreadpoolDisposed s) s (queue s)).

(** [dispose], lines 43-46: the workers still in the set.  Calling
    [x.onerror] when it is [null] raises a [TypeError] and leaves the loop. *)
Fixpoint dispose_busy (ws : list worker) (s : pool) : result :=
  match ws with
  | [] => Done s
  | x :: ws' =>
      let s := emit (EvTerminate x) s in
      match onerror s !! x with
      | None => Raised s
      | Some h =>
          match error_handler h ThreadpoolDisposed s with
          | Done s => dispose_busy ws' s
          | Raised s => Raised s
          end
      end
  end.

(** [dispose()], lines 36-49. *)
Definition dispose (s : pool) : result :=
  let s := dispose_idle s in
  let s := dispose_queue s in
  match dispose_busy (workers s) s with
  | Done s => Done (set_freeWorkers [] (set_workers [] s))
  | Raised s => Raised s
  end.

(** The three gauges, lines 53-67. *)
Definition getFreeWorkerCount (s : pool) : Z :=
  Z.of_nat (length (freeWorkers s)).

Definition getRunningWorkerCount (s : pool) : Z :=
  Z.of_nat (length (workers s)) - Z.of_nat (length (freeWorkers s)).

Definition getWaitingEventCount (s : pool) : Z :=
  Z.of_nat (length (queue s)).

(** ** Construction, lines 12-21 *)

Inductive construct_error :=
| SizeRangeError           (* RangeError('size must greater than 0') *)
| ArrayLengthRangeError.   (* raised by Array.from: invalid array length *)

(** The pool as the constructor leaves it when [n] workers were created:
    an empty queue, all workers free, [workers] a set of the same objects. *)
Definition fresh (n : nat) : pool :=
  Pool [] (seq 0 n) (seq 0 n) ∅ ∅ ∅ 0%nat [].

(** [constructor(fn, size)].  [hardwareConcurrency] is
    [navigator.hardwareConcurrency], used when the argument is omitted
    ([None]).  [Array.from] reads the length with [ToLength] and first
    builds an array of that length, which raises a [RangeError] above
    [2^32 - 1]; only then does its callback create the workers.  The first
    component lists the [Worker] objects created by the call. *)
Definition constructor (hardwareConcurrency : Z) (fn : JSVal)
    (size : option jsnum) : list worker * (construct_error + pool) :=
  let size := default (Num (inject_Z (hardwareConcurrency - 1))) size in
  if lt_one size then ([], inl SizeRangeError)
  else if 2 ^ 32 - 1 <? to_length size then ([], inl ArrayLengthRangeError)
  else let n := Z.to_nat (to_length size) in (seq 0 n, inr (fresh n)).

(** ** The controller's environment

    Between two public calls the host may deliver a [message] or an [error]
    event to any worker; an event for which no handler is installed is
    dropped, and an exception that leaves a handler is reported by the host
    and the pool goes on from the state reached. *)
Inductive op :=
| Dispatch (args : list JSVal)
| Message (w : worker) (data : JSVal)
| Failure (w : worker) (err : JSVal)
| Dispose.

Definition step (s : pool) (o : op) : result :=
  match o with
  | Dispatch args => Done (dispatch args s)
  | Message w data =>
      match onmessage s !! w with
      | Some h => message_handler h data s
      | None => Done s
      end
  | Failure w err =>
      match onerror s !! w with
      | Some h => error_handler h (WorkerError err) s
      | None => Done s
      end
  | Dispose => dispose s
  end.

Definition run (ops : list op) (s : pool) : pool :=
  foldl (fun s o => state_of (step s o)) s ops.

End Pool.

Arguments ThreadpoolDisposed {JSVal}.
Arguments WorkerError {JSVal}.
Arguments DataCloneError {JSVal}.
Arguments Fulfilled {JSVal}.
Arguments Rejected {JSVal}.
Arguments Call {JSVal}.
Arguments call_promise {JSVal}.
Arguments call_args {JSVal}.
Arguments EvTerminate {JSVal}.
Arguments EvDetach {JSVal}.
Arguments EvAttach {JSVal}.
Arguments EvPost {JSVal}.
Arguments EvQueued {JSVal}.
Arguments EvResolve {JSVal}.
Arguments EvReject {JSVal}.
Arguments Pool {JSVal}.
Arguments queue {JSVal}.
Arguments freeWorkers {JSVal}.
Arguments workers {JSVal}.
Arguments onmessage {JSVal}.
Arguments onerror {JSVal}.
Arguments promises {JSVal}.
Arguments next_promise {JSVal}.
Arguments trace {JSVal}.
Arguments set_queue {JSVal}.
Arguments set_freeWorkers {JSVal}.
Arguments set_workers {JSVal}.
Arguments set_onmessage {JSVal}.
Arguments set_onerror {JSVal}.
Arguments emit {JSVal}.
Arguments settle {JSVal}.
Arguments resolve {JSVal}.
Arguments reject {JSVal}.
Arguments start {JSVal} {_}.
Arguments onFinish {JSVal} {_}.
Arguments message_handler {JSVal} {_}.
Arguments error_handler {JSVal} {_}.
Arguments dispatch {JSVal} {_}.
Arguments Done {JSVal}.
Arguments postMessage {JSVal} {_}.
Arguments Raised {JSVal}.
Arguments state_of {JSVal}.
Arguments dispose_idle {JSVal}.
Arguments dispose_queue {JSVal}.
Arguments dispose_busy {JSVal} {_}.
Arguments dispose {JSVal} {_}.
Arguments getFreeWorkerCount {JSVal}.
Arguments getRunningWorkerCount {JSVal}.
Arguments getWaitingEventCount {JSVal}.
Arguments fresh {JSVal}.
Arguments constructor {JSVal}.
Arguments Dispatch {JSVal}.
Arguments Message {JSVal}.
Arguments Failure {JSVal}.
Arguments Dispose {JSVal}.
Arguments step {JSVal} {_}.
Arguments run {JSVal} {_}.

(** ** Reading the state and the log *)

Section Log.

Context {JSVal : Type} {JSVal_clonable : Clonable JSVal}.
Implicit Types (s : pool JSVal) (t : list (event JSVal)) (c : call JSVal).

(** Promises whose call was handed to a worker, in the order of assignment. *)
Definition assigned t : list promise :=
  omap (fun e => match e with EvAttach _ p => Some p | _ => None end) t.

(** Promises whose call was appended to [queue], in the order of arrival. *)
Definition enqueued t : list promise :=
  omap (fun e => match e with EvQueued p => Some p | _ => None end) t.

(** The calls of [reject], with their argument. *)
Definition rejections t : list (promise * reason JSVal) :=
  omap (fun e => match e with EvReject p r => Some (p, r) | _ => None end) t.

(** The calls of [resolve], with their argument. *)
Definition resolutions t : list (promise * JSVal) :=
  omap (fun e => match e with EvResolve p v => Some (p, v) | _ => None end) t.

(** The promises [resolve] or [reject] was called for, call by call. *)
Definition settlements t : list promise :=
  omap (fun e => match e with
                 | EvResolve p _ | EvReject p _ => Some p
                 | _ => None
                 end) t.

(** The workers a message was posted to. *)
Definition posts t : list worker :=
  omap (fun e => match e with EvPost w _ => Some w | _ => None end) t.

(** What a run appended to the log of [s]. *)
Definition since s s' : list (event JSVal) :=
  drop (length (trace s)) (trace s').

(** Workers of the set that are not idle. *)
Definition busy s : list worker :=
  filter (fun w => w ∉ freeWorkers s) (workers s).

(** The closures installed on them, in set order. *)
Definition running s : list closure :=
  omap (fun w => onerror s !! w) (busy s).

(** The promises of the calls in flight. *)
Definition inflight s : list promise :=
  cl_promise <$> running s.

(** The state of the promises after [reject] or [resolve] was called with
    [o] on each of [ps] in turn. *)
Definition settle_map (p : promise) (o : settlement JSVal)
    (m : gmap promise (settlement JSVal)) : gmap promise (settlement JSVal) :=
  match m !! p with
  | None => <[p := o]> m
  | Some _ => m
  end.

Definition settle_each (ps : list promise) (o : settlement JSVal)
    (m : gmap promise (settlement JSVal)) : gmap promise (settlement JSVal) :=
  foldl (fun m p => settle_map p o m) m ps.

(** What [dispose] appends to the log of [s]. *)
Definition dispose_log s : list (event JSVal) :=
  (EvTerminate <$> freeWorkers s) ++
  ((fun c => EvReject (call_promise c) ThreadpoolDisposed) <$> queue s) ++
  (running s ≫= fun h => [EvTerminate (cl_worker h); EvDetach (cl_worker h);
                           EvReject (cl_promise h) ThreadpoolDisposed]).

(** The operation is a notification of worker [w]. *)
Definition settles (o : op JSVal) (w : worker) : Prop :=
  match o with
  | Message w' _ | Failure w' _ => w' = w
  | _ => False
  end.

(** What the handler of promise [p] does to it on notification [o]. *)
Definition outcome (o : op JSVal) : option (settlement JSVal) :=
  match o with
  | Message _ v => Some (Fulfilled v)
  | Failure _ err => Some (Rejected (WorkerError err))
  | _ => None
  end.

Definition outcome_event (p : promise) (o : op JSVal) : option (event JSVal) :=
  match o with
  | Message _ v => Some (EvResolve p v)
  | Failure _ err => Some (EvReject p (WorkerError err))
  | _ => None
  end.

Definition is_dispose (o : op JSVal) : bool :=
  match o with Dispose => true | _ => false end.

(** No [dispose] among the operations. *)
Definition live (ops : list (op JSVal)) : Prop :=
  forallb (fun o => negb (is_dispose o)) ops = true.

(** Removing the handlers of several workers. *)
Definition detach_each (ws : list worker) (m : gmap worker closure) :
    gmap worker closure :=
  foldl (fun m w => delete w m) m ws.

(** Calls that went through the queue, in the order they were assigned. *)
Definition served t : list promise :=
  filter (fun p => p ∈ enqueued t) (assigned t).

(** The order of service: the calls served from the queue, followed by
    those still waiting, are the calls queued. *)
Definition fifo s : Prop :=
  served (trace s) ++ (call_promise <$> queue s) = enqueued (trace s).

(** No promise was settled twice, and the settled ones are recorded. *)
Definition settled_once s : Prop :=
  NoDup (settlements (trace s)) /\
  forall p, p ∈ settlements (trace s) -> is_Some (promises s !! p).

(** At least one [dispose] among the operations. *)
Definition disposed (ops : list (op JSVal)) : Prop :=
  existsb is_dispose ops = true.

(** The invariant of the controller. *)
Record Inv s : Prop := {
  inv_workers : NoDup (workers s);
  inv_free : NoDup (freeWorkers s);
  inv_free_sub : forall w, w ∈ freeWorkers s -> w ∈ workers s;
  inv_handlers : onmessage s = onerror s;
  inv_onerror : forall w h, onerror s !! w = Some h ->
    w ∈ workers s /\ (w ∉ freeWorkers s) /\ cl_worker h = w;
  inv_busy : forall w, w ∈ workers s -> w ∉ freeWorkers s ->
    is_Some (onerror s !! w);
  inv_no_wait : queue s <> [] -> freeWorkers s = [];
  inv_queue_pending : forall c, c ∈ queue s ->
    (call_promise c < next_promise s)%nat /\
    promises s !! call_promise c = None;
  inv_queue_nodup : NoDup (call_promise <$> queue s);
  inv_flight : forall w h, onerror s !! w = Some h ->
    (cl_promise h < next_promise s)%nat /\
    (cl_promise h ∉ call_promise <$> queue s) /\
    (cl_promise h ∉ settlements (trace s));
  inv_flight_inj : forall w w' h h',
    onerror s !! w = Some h -> onerror s !! w' = Some h' ->
    cl_promise h = cl_promise h' -> w = w';
  inv_settled : forall p o, promises s !! p = Some o ->
    (p < next_promise s)%nat;
  inv_logged : forall p, p ∈ assigned (trace s) ++ enqueued (trace s) ->
    (p < next_promise s)%nat;
  inv_once : settled_once s
}.

(** Every argument of every [dispatch] among the operations can be cloned. *)
Definition clonable_ops (ops : list (op JSVal)) : Prop :=
  forallb (fun o => match o with
                    | Dispatch args => forallb clonable args
                    | _ => true
                    end) ops = true.

(** What holds in addition as long as [postMessage] has never raised: the
    waiting calls can be cloned, a promise held by a handler is pending,
    and every promise handed out is settled, waiting or held. *)
Record Sound s : Prop := {
  sound_queue : forall c, c ∈ queue s -> forallb clonable (call_args c) = true;
  sound_flight : forall w h, onerror s !! w = Some h ->
    promises s !! cl_promise h = None;
  sound_accounted : forall p : promise, (p < next_promise s)%nat ->
    is_Some (promises s !! p) \/
    p ∈ call_promise <$> queue s \/
    exists w h, onerror s !! w = Some h /\ cl_promise h = p
}.

(** The state of a pool after [dispose]. *)
Record Dead s : Prop := {
  dead_free : freeWorkers s = [];
  dead_workers : workers s = [];
  dead_onmessage : onmessage s = ∅;
  dead_onerror : onerror s = ∅
}.

(** The workers whose handlers were removed, removal by removal. *)
Definition detaches t : list worker :=
  omap (fun e => match e with EvDetach w => Some w | _ => None end) t.

(** The workers [terminate] was called on. *)
Definition terminations t : list worker :=
  omap (fun e => match e with EvTerminate w => Some w | _ => None end) t.

(** The argument lists posted to workers, post by post. *)
Definition posted t : list (list JSVal) :=
  omap (fun e => match e with EvPost _ args => Some args | _ => None end) t.

(** The argument lists given to [dispatch], call by call. *)
Definition dispatched (ops : list (op JSVal)) : list (list JSVal) :=
  omap (fun o => match o with Dispatch args => Some args | _ => None end) ops.

(** How often worker [w] occurs in a list. *)
Definition occurrences (w : worker) (l : list worker) : nat :=
  length (filter (fun x => x = w) l).

(** The call of promise [p] sits in the queue. *)
Definition waiting s (p : promise) : Prop :=
  p ∈ call_promise <$> queue s.

(** The call of promise [p] is with a worker. *)
Definition flying s (p : promise) : Prop :=
  exists w h, onerror s !! w = Some h /\ cl_promise h = p.

(** Promise [p] was handed out, is pending, and nothing in the pool refers to
    it any more. *)
Definition lost s (p : promise) : Prop :=
  (p < next_promise s)%nat /\ promises s !! p = None /\
  ~ waiting s p /\ ~ flying s p.

(** What one operation does to a state of the invariant, case by case:
    the branches of [start] under [dispatch] (queue the call; post it; try
    to post it and have the promise rejected), the branches of [onFinish]
    under a handler (nobody waits; the head of the queue is posted; posting
    it raises and the handler is left before it settles), a notification
    nobody listens to, and [dispose]. *)
Inductive effect s : op JSVal -> result JSVal -> Prop :=
| eff_queue args :
    freeWorkers s = [] ->
    effect s (Dispatch args)
      (Done (Pool (queue s ++ [Call (next_promise s) args]) [] (workers s)
                  (onmessage s) (onerror s) (promises s) (S (next_promise s))
                  (trace s ++ [EvQueued (next_promise s)])))
| eff_assign args r w :
    freeWorkers s = r ++ [w] -> queue s = [] -> onerror s !! w = None ->
    forallb clonable args = true ->
    effect s (Dispatch args)
      (Done (Pool [] r (workers s)
                  (<[w := Closure w (next_promise s)]> (onmessage s))
                  (<[w := Closure w (next_promise s)]> (onerror s))
                  (promises s) (S (next_promise s))
                  (trace s ++ [EvAttach w (next_promise s); EvPost w args])))
| eff_refuse args r w :
    freeWorkers s = r ++ [w] -> queue s = [] -> onerror s !! w = None ->
    forallb clonable args = false ->
    effect s (Dispatch args)
      (Done (Pool [] r (workers s)
                  (<[w := Closure w (next_promise s)]> (onmessage s))
                  (<[w := Closure w (next_promise s)]> (onerror s))
                  (<[next_promise s := Rejected DataCloneError]> (promises s))
                  (S (next_promise s))
                  (trace s ++ [EvAttach w (next_promise s); EvPost w args])))
| eff_idle o w h out e :
    settles o w -> onerror s !! w = Some h ->
    outcome o = Some out -> outcome_event (cl_promise h) o = Some e ->
    queue s = [] ->
    effect s o
      (Done (Pool [] (freeWorkers s ++ [w]) (workers s)
                  (delete w (onmessage s)) (delete w (onerror s))
                  (settle_map (cl_promise h) out (promises s))
                  (next_promise s) (trace s ++ [EvDetach w; e])))
| eff_next o w h out e c q :
    settles o w -> onerror s !! w = Some h ->
    outcome o = Some out -> outcome_event (cl_promise h) o = Some e ->
    queue s = c :: q -> freeWorkers s = [] ->
    forallb clonable (call_args c) = true ->
    effect s o
      (Done (Pool q [] (workers s)
                  (<[w := Closure w (call_promise c)]> (delete w (onmessage s)))
                  (<[w := Closure w (call_promise c)]> (delete w (onerror s)))
                  (settle_map (cl_promise h) out (promises s))
                  (next_promise s)
                  (trace s ++ [EvDetach w; EvAttach w (call_promise c);
                               EvPost w (call_args c); e])))
| eff_raise o w h c q :
    settles o w -> onerror s !! w = Some h ->
    queue s = c :: q -> freeWorkers s = [] ->
    forallb clonable (call_args c) = false ->
    effect s o
      (Raised (Pool q [] (workers s)
                    (<[w := Closure w (call_promise c)]> (delete w (onmessage s)))
                    (<[w := Closure w (call_promise c)]> (delete w (onerror s)))
                    (promises s) (next_promise s)
                    (trace s ++ [EvDetach w; EvAttach w (call_promise c);
                                 EvPost w (call_args c)])))
| eff_drop o w :
    settles o w -> onerror s !! w = None -> effect s o (Done s)
| eff_dispose :
    effect s Dispose
      (Done (Pool [] [] [] ∅ ∅
                  (settle_each ((call_promise <$> queue s) ++ inflight s)
                               (Rejected ThreadpoolDisposed) (promises s))
                  (next_promise s) (trace s ++ dispose_log s))).

End Log.

(** Values for the sample runs.  Numbers can be cloned. *)
#[export] Instance nat_clonable : Clonable nat := fun _ => true.

(** Numbers, and a function such as [() => 1], which cannot be cloned. *)
Inductive sample :=
| Number (n : nat)
| Arrow.

#[export] Instance sample_clonable : Clonable sample :=
  fun v => match v with Number _ => true | Arrow => false end.

(** Two sample runs on a pool of one worker. *)
Definition two_queued : list (op nat) :=
  [Dispatch [10%nat]; Dispatch [11%nat]; Dispatch [12%nat]].

Definition one_served : list (op nat) :=
  two_queued ++ [Message 0%nat 5%nat].


Definition unclonable_head : list (op sample) :=
  [Dispatch [Number 10]; Dispatch [Arrow]].

(** Reduce the projections of an explicit [Pool], nothing else. *)
Ltac fields :=
  cbn [queue freeWorkers workers onmessage onerror promises next_promise
       trace call_promise call_args cl_worker cl_promise].

(** ** Equations of the methods *)

Section Equations.

Context {JSVal : Type} {JSVal_clonable : Clonable JSVal}.
Implicit Types (s : pool JSVal) (t : list (event JSVal)) (c : call JSVal).

Lemma pop_snoc (l : list worker) (w : worker) : pop (l ++ [w]) = Some (l, w).
Proof. unfold pop. rewrite reverse_snoc. simpl. by rewrite reverse_involutive. Qed.

Lemma pop_nil_inv (l : list worker) : pop l = None -> l = [].
Proof.
  destruct l as [|x l] using rev_ind; [done|].
  by rewrite pop_snoc.
Qed.

Lemma pop_Some_inv (l r : list worker) (w : worker) :
  pop l = Some (r, w) -> l = r ++ [w].
Proof.
  destruct l as [|x l _] using rev_ind; [done|].
  rewrite pop_snoc. by intros [= -> ->].
Qed.

Lemma free_cases (l : list worker) : l = [] \/ exists r w, l = r ++ [w].
Proof. destruct l as [|x l _] using rev_ind; eauto. Qed.

Lemma start_queued c s :
  freeWorkers s = [] ->
  start c s =
    Done (Pool (queue s ++ [c]) [] (workers s) (onmessage s) (onerror s)
               (promises s) (next_promise s)
               (trace s ++ [EvQueued (call_promise c)])).
Proof. intros E. unfold start, emit, set_queue. cbn. by rewrite E. Qed.

Lemma start_assigned c s r w :
  freeWorkers s = r ++ [w] ->
  start c s =
    (if forallb clonable (call_args c) then Done else Raised)
      (Pool (queue s) r (workers s)
            (<[w := Closure w (call_promise c)]> (onmessage s))
            (<[w := Closure w (call_promise c)]> (onerror s))
            (promises s) (next_promise s)
            (trace s ++ [EvAttach w (call_promise c); EvPost w (call_args c)])).
Proof.
  intros E. unfold start. rewrite E, pop_snoc.
  unfold postMessage, emit, set_onerror, set_onmessage, set_freeWorkers. cbn.
  rewrite <- app_assoc. by destruct (forallb clonable (call_args c)).
Qed.

Lemma dispatch_queued args s :
  freeWorkers s = [] ->
  dispatch args s =
    Pool (queue s ++ [Call (next_promise s) args]) [] (workers s)
         (onmessage s) (onerror s) (promises s) (S (next_promise s))
         (trace s ++ [EvQueued (next_promise s)]).
Proof. intros E. unfold dispatch. by rewrite start_queued. Qed.

Lemma dispatch_assigned args s r w :
  freeWorkers s = r ++ [w] ->
  dispatch args s =
    Pool (queue s) r (workers s)
         (<[w := Closure w (next_promise s)]> (onmessage s))
         (<[w := Closure w (next_promise s)]> (onerror s))
         (if forallb clonable args then promises s
          else settle_map (next_promise s) (Rejected DataCloneError)
                          (promises s))
         (S (next_promise s))
         (trace s ++ [EvAttach w (next_promise s); EvPost w args]).
Proof.
  intros E. unfold dispatch. rewrite (start_assigned _ _ r w) by done.
  cbn [call_args call_promise]. by destruct (forallb clonable args).
Qed.

Lemma onFinish_idle w s :
  queue s = [] ->
  onFinish w s =
    Done (Pool [] (freeWorkers s ++ [w]) (workers s)
               (delete w (onmessage s)) (delete w (onerror s))
               (promises s) (next_promise s) (trace s ++ [EvDetach w])).
Proof.
  intros E. unfold onFinish, emit, set_onerror, set_onmessage, set_freeWorkers.
  cbn. by rewrite E.
Qed.

Lemma onFinish_next w s c q :
  queue s = c :: q ->
  onFinish w s =
    (if forallb clonable (call_args c) then Done else Raised)
      (Pool q (freeWorkers s) (workers s)
            (<[w := Closure w (call_promise c)]> (delete w (onmessage s)))
            (<[w := Closure w (call_promise c)]> (delete w (onerror s)))
            (promises s) (next_promise s)
            (trace s ++ [EvDetach w; EvAttach w (call_promise c);
                         EvPost w (call_args c)])).
Proof.
  intros E. unfold onFinish, emit, set_onerror, set_onmessage, set_freeWorkers.
  cbn. rewrite E.
  rewrite (start_assigned _ _ (freeWorkers s) w) by done. cbn.
  by rewrite <- app_assoc.
Qed.

(** What a handler does: [onFinish], then one settlement unless [onFinish]
    raised. *)
Lemma handler_idle w (p : promise) (out : settlement JSVal) e s :
  queue s = [] ->
  match onFinish w s with
  | Done s1 => Done (settle p out (emit e s1))
  | Raised s1 => Raised s1
  end =
    Done (Pool [] (freeWorkers s ++ [w]) (workers s)
               (delete w (onmessage s)) (delete w (onerror s))
               (settle_map p out (promises s)) (next_promise s)
               (trace s ++ [EvDetach w; e])).
Proof.
  intros Q. rewrite onFinish_idle by done. unfold settle, emit. fields.
  by rewrite <- app_assoc.
Qed.

Lemma handler_next w (p : promise) (out : settlement JSVal) e s c q :
  queue s = c :: q -> forallb clonable (call_args c) = true ->
  match onFinish w s with
  | Done s1 => Done (settle p out (emit e s1))
  | Raised s1 => Raised s1
  end =
    Done (Pool q (freeWorkers s) (workers s)
               (<[w := Closure w (call_promise c)]> (delete w (onmessage s)))
               (<[w := Closure w (call_promise c)]> (delete w (onerror s)))
               (settle_map p out (promises s)) (next_promise s)
               (trace s ++ [EvDetach w; EvAttach w (call_promise c);
                            EvPost w (call_args c); e])).
Proof.
  intros Q Hc. rewrite (onFinish_next _ _ c q), Hc by done.
  unfold settle, emit. fields. by rewrite <- app_assoc.
Qed.

Lemma handler_raise w (p : promise) (out : settlement JSVal) e s c q :
  queue s = c :: q -> forallb clonable (call_args c) = false ->
  match onFinish w s with
  | Done s1 => Done (settle p out (emit e s1))
  | Raised s1 => Raised s1
  end =
    Raised (Pool q (freeWorkers s) (workers s)
                 (<[w := Closure w (call_promise c)]> (delete w (onmessage s)))
                 (<[w := Closure w (call_promise c)]> (delete w (onerror s)))
                 (promises s) (next_promise s)
                 (trace s ++ [EvDetach w; EvAttach w (call_promise c);
                              EvPost w (call_args c)])).
Proof. intros Q Hc. by rewrite (onFinish_next _ _ c q), Hc. Qed.

End Equations.

(** ** The invariant of the controller *)

Section Invariant.

Context {JSVal : Type} {JSVal_clonable : Clonable JSVal}.
Implicit Types (s : pool JSVal) (t : list (event JSVal)) (c : call JSVal).

(** *** Reading a log in pieces *)

Lemma assigned_app t1 t2 : assigned (t1 ++ t2) = assigned t1 ++ assigned t2.
Proof. apply omap_app. Qed.

Lemma enqueued_app t1 t2 : enqueued (t1 ++ t2) = enqueued t1 ++ enqueued t2.
Proof. apply omap_app. Qed.

Lemma rejections_app t1 t2 :
  rejections (t1 ++ t2) = rejections t1 ++ rejections t2.
Proof. apply omap_app. Qed.

Lemma resolutions_app t1 t2 :
  resolutions (t1 ++ t2) = resolutions t1 ++ resolutions t2.
Proof. apply omap_app. Qed.

Lemma posts_app t1 t2 : posts (t1 ++ t2) = posts t1 ++ posts t2.
Proof. apply omap_app. Qed.

Lemma settlements_app t1 t2 :
  settlements (t1 ++ t2) = settlements t1 ++ settlements t2.
Proof. apply omap_app. Qed.

Lemma posted_app t1 t2 : posted (t1 ++ t2) = posted t1 ++ posted t2.
Proof. apply omap_app. Qed.

Lemma detaches_app t1 t2 : detaches (t1 ++ t2) = detaches t1 ++ detaches t2.
Proof. apply omap_app. Qed.

Lemma terminations_app t1 t2 :
  terminations (t1 ++ t2) = terminations t1 ++ terminations t2.
Proof. apply omap_app. Qed.

Lemma dispatched_app (ops1 ops2 : list (op JSVal)) :
  dispatched (ops1 ++ ops2) = dispatched ops1 ++ dispatched ops2.
Proof. apply omap_app. Qed.

Lemma occurrences_app (w : worker) (l1 l2 : list worker) :
  occurrences w (l1 ++ l2) = (occurrences w l1 + occurrences w l2)%nat.
Proof. unfold occurrences. by rewrite filter_app, length_app. Qed.

Lemma occurrences_NoDup (w : worker) (l : list worker) :
  NoDup l -> occurrences w l = if decide (w ∈ l) then 1%nat else 0%nat.
Proof.
  unfold occurrences. induction 1 as [|x l Hx Hnd IH]; [done|].
  rewrite filter_cons. destruct (decide (x = w)) as [->|Hne].
  - cbn [length]. rewrite IH, decide_False by done.
    rewrite decide_True; [done|]. apply list_elem_of_here.
  - rewrite IH. destruct (decide (w ∈ l)) as [D|D].
    + rewrite decide_True; [done|]. by apply list_elem_of_further.
    + rewrite decide_False; [done|].
      intros [?|?]%elem_of_cons; congruence.
Qed.

Lemma omap_nil {A B} (f : A -> option B) (l : list A) :
  Forall (fun x => f x = None) l -> omap f l = [].
Proof. induction 1 as [|x l Hx _ IH]; [done|]. cbn. by rewrite Hx. Qed.

(** The event of a settlement is nothing but a settlement. *)
Lemma outcome_event_quiet (p : promise) (o : op JSVal) (e : event JSVal) :
  outcome_event p o = Some e ->
  assigned [e] = [] /\ posted [e] = [] /\ posts [e] = [] /\
  detaches [e] = [] /\ terminations [e] = [] /\ settlements [e] = [p] /\
  dispatched [o] = [] /\ is_dispose o = false.
Proof. destruct o; intros [= <-]; by repeat split. Qed.

Lemma outcome_event_silent (p : promise) (o : op JSVal) (e : event JSVal) :
  outcome_event p o = Some e ->
  assigned [e] = [] /\ enqueued [e] = [] /\ settlements [e] = [p].
Proof. destruct o; intros [= <-]; by repeat split. Qed.

Lemma settles_not_dispatch (o : op JSVal) (w : worker) :
  settles o w -> dispatched [o] = [] /\ is_dispose o = false.
Proof. by destruct o. Qed.

Lemma since_app s s' t : trace s' = trace s ++ t -> since s s' = t.
Proof. intros E. unfold since. rewrite E. apply drop_app_length. Qed.

Lemma run_snoc (ops : list (op JSVal)) o s :
  run (ops ++ [o]) s = state_of (step (run ops s) o).
Proof. unfold run. by rewrite foldl_app. Qed.

Lemma run_app (ops1 ops2 : list (op JSVal)) s :
  run (ops1 ++ ops2) s = run ops2 (run ops1 s).
Proof. unfold run. apply foldl_app. Qed.

Lemma live_snoc (ops : list (op JSVal)) o :
  live (ops ++ [o]) <-> live ops /\ is_dispose o = false.
Proof.
  unfold live. rewrite forallb_app. cbn. rewrite andb_true_r.
  rewrite andb_true_iff, negb_true_iff. done.
Qed.

Lemma live_dispatches (l : list (list JSVal)) : live (Dispatch <$> l).
Proof. unfold live. induction l as [|a l IH]; [done|]. exact IH. Qed.

Lemma live_or_disposed (ops : list (op JSVal)) :
  existsb is_dispose ops = false -> live ops.
Proof.
  unfold live. induction ops as [|o ops IH]; [done|].
  cbn. intros [Ho Hops]%orb_false_iff. by rewrite Ho, IH.
Qed.

Lemma filter_ext_elem (P Q : promise -> Prop)
    `{!forall x, Decision (P x)} `{!forall x, Decision (Q x)} (l : list promise) :
  (forall x, x ∈ l -> P x <-> Q x) -> filter P l = filter Q l.
Proof.
  induction l as [|a l IH]; intros Hext; [done|].
  rewrite !filter_cons.
  assert (P a <-> Q a) as Ha by apply Hext, list_elem_of_here.
  rewrite IH by (intros x Hx; apply Hext; by apply list_elem_of_further).
  destruct (decide (P a)), (decide (Q a)); tauto || done.
Qed.

Lemma lookup_settle_map (p p' : promise) (o : settlement JSVal)
    (m : gmap promise (settlement JSVal)) :
  settle_map p o m !! p' =
  match m !! p' with
  | Some x => Some x
  | None => if decide (p = p') then Some o else None
  end.
Proof.
  unfold settle_map. destruct (m !! p) as [x|] eqn:E.
  - destruct (m !! p') eqn:E'; [done|].
    destruct (decide (p = p')) as [->|]; [congruence|done].
  - rewrite lookup_insert. destruct (decide (p = p')) as [->|]; [|by case_match].
    by rewrite E.
Qed.

Lemma settle_map_pending (p : promise) (o : settlement JSVal)
    (m : gmap promise (settlement JSVal)) :
  m !! p = None -> settle_map p o m = <[p := o]> m.
Proof. intros E. unfold settle_map. by rewrite E. Qed.

(** *** [dispose], phase by phase *)

Lemma pool_eta s :
  Pool (queue s) (freeWorkers s) (workers s) (onmessage s) (onerror s)
       (promises s) (next_promise s) (trace s) = s.
Proof. by destruct s. Qed.

Lemma filter_not_in_cons (x : worker) (l ws : list worker) :
  filter (fun y => y ∉ l) (filter (fun y => y <> x) ws) =
  filter (fun y => y ∉ x :: l) ws.
Proof.
  induction ws as [|a ws IH]; [done|].
  rewrite (filter_cons (fun y => y <> x)), (filter_cons (fun y => y ∉ x :: l)).
  destruct (decide (a <> x)) as [D|D].
  - rewrite filter_cons.
    destruct (decide (a ∉ l)) as [D1|D1];
      destruct (decide (a ∉ x :: l)) as [D2|D2];
      rewrite ?IH; try done.
    + exfalso. apply D2. by apply not_elem_of_cons.
    + exfalso. apply not_elem_of_cons in D2 as [_ D2]. done.
  - destruct (decide (a ∉ x :: l)) as [D2|D2]; [|done].
    exfalso. apply not_elem_of_cons in D2 as [D2 _]. done.
Qed.

Lemma filter_not_in_nil (ws : list worker) :
  filter (fun y => y ∉ []) ws = ws.
Proof.
  induction ws as [|a ws IH]; [done|].
  rewrite filter_cons. destruct (decide (a ∉ [])) as [D|D]; [by rewrite IH|].
  exfalso. apply D, not_elem_of_nil.
Qed.

Lemma terminate_idle_eq (l : list worker) s :
  foldl (fun s x => emit (EvTerminate x)
                      (set_workers (filter (fun y => y <> x) (workers s)) s))
        s l =
  Pool (queue s) (freeWorkers s) (filter (fun y => y ∉ l) (workers s))
       (onmessage s) (onerror s) (promises s) (next_promise s)
       (trace s ++ (EvTerminate <$> l)).
Proof.
  revert s. induction l as [|x l IH]; intros s.
  - cbn. rewrite filter_not_in_nil, app_nil_r. by rewrite pool_eta.
  - cbn [foldl]. rewrite IH. unfold emit, set_workers. fields.
    rewrite filter_not_in_cons. cbn. by rewrite <- app_assoc.
Qed.

Lemma dispose_idle_eq s :
  dispose_idle s =
  Pool (queue s) (freeWorkers s) (busy s) (onmessage s) (onerror s)
       (promises s) (next_promise s)
       (trace s ++ (EvTerminate <$> freeWorkers s)).
Proof. apply terminate_idle_eq. Qed.

Lemma reject_each_eq (l : list (call JSVal)) r s :
  foldl (fun s c => reject (call_promise c) r s) s l =
  Pool (queue s) (freeWorkers s) (workers s) (onmessage s) (onerror s)
       (settle_each (call_promise <$> l) (Rejected r) (promises s))
       (next_promise s)
       (trace s ++ ((fun c => EvReject (call_promise c) r) <$> l)).
Proof.
  revert s. induction l as [|c l IH]; intros s.
  - cbn. by rewrite app_nil_r, pool_eta.
  - cbn [foldl]. rewrite IH. unfold reject, settle, emit. fields.
    cbn. by rewrite <- app_assoc.
Qed.

Lemma dispose_queue_eq s :
  dispose_queue s =
  Pool [] (freeWorkers s) (workers s) (onmessage s) (onerror s)
       (settle_each (call_promise <$> queue s) (Rejected ThreadpoolDisposed)
                    (promises s))
       (next_promise s)
       (trace s ++ ((fun c => EvReject (call_promise c) ThreadpoolDisposed)
                      <$> queue s)).
Proof. unfold dispose_queue. by rewrite reject_each_eq. Qed.

Lemma lookup_detach_each (ws : list worker) (m : gmap worker closure)
    (w : worker) :
  detach_each ws m !! w = if decide (w ∈ ws) then None else m !! w.
Proof.
  revert m. induction ws as [|x ws IH]; intros m; [done|].
  change (detach_each (x :: ws) m) with (detach_each ws (delete x m)).
  rewrite IH, lookup_delete.
  destruct (decide (w ∈ ws)) as [D|D].
  - rewrite decide_True; [done|]. by apply list_elem_of_further.
  - destruct (decide (x = w)) as [->|D'].
    + rewrite decide_True; [done|]. apply list_elem_of_here.
    + rewrite decide_False; [done|].
      intros [?|?]%elem_of_cons; congruence.
Qed.

Lemma lookup_settle_each (ps : list promise) (o : settlement JSVal)
    (m : gmap promise (settlement JSVal)) (p : promise) :
  settle_each ps o m !! p =
  match m !! p with
  | Some x => Some x
  | None => if decide (p ∈ ps) then Some o else None
  end.
Proof.
  revert m. induction ps as [|a ps IH]; intros m.
  - cbn. destruct (m !! p); [done|].
    rewrite decide_False; [done|]. apply not_elem_of_nil.
  - change (settle_each (a :: ps) o m) with (settle_each ps o (settle_map a o m)).
    rewrite IH. unfold settle_map.
    destruct (m !! a) eqn:Ea.
    + destruct (m !! p) eqn:Ep; [done|].
      destruct (decide (p ∈ ps)) as [D|D].
      * rewrite decide_True; [done|]. by apply list_elem_of_further.
      * rewrite decide_False; [done|].
        intros [?|?]%elem_of_cons; congruence.
    + rewrite lookup_insert. destruct (decide (a = p)) as [->|D].
      * rewrite Ea. rewrite decide_True; [done|]. apply list_elem_of_here.
      * destruct (m !! p); [done|].
        destruct (decide (p ∈ ps)) as [D1|D1].
        -- rewrite decide_True; [done|]. by apply list_elem_of_further.
        -- rewrite decide_False; [done|].
           intros [?|?]%elem_of_cons; congruence.
Qed.

Lemma settle_each_app (l1 l2 : list promise) (o : settlement JSVal)
    (m : gmap promise (settlement JSVal)) :
  settle_each (l1 ++ l2) o m = settle_each l2 o (settle_each l1 o m).
Proof. apply foldl_app. Qed.

Lemma elem_of_busy s w : w ∈ busy s <-> (w ∉ freeWorkers s) /\ w ∈ workers s.
Proof. unfold busy. by rewrite list_elem_of_filter. Qed.

Lemma closures_of_workers (m : gmap worker closure) (l : list worker) :
  (forall w, w ∈ l -> exists h, m !! w = Some h /\ cl_worker h = w) ->
  cl_worker <$> omap (fun w => m !! w) l = l /\
  Forall (fun h => m !! cl_worker h = Some h) (omap (fun w => m !! w) l).
Proof.
  induction l as [|w l IH]; intros H; [by split|].
  destruct (H w) as (h & Hh & Hw); [apply list_elem_of_here|].
  destruct IH as [IH1 IH2].
  { intros x Hx. apply H. by apply list_elem_of_further. }
  cbn. rewrite Hh. cbn. rewrite IH1, Hw. split; [done|].
  constructor; [by rewrite Hw|done].
Qed.

(** [dispose] neither assigns nor queues a call, and resolves nothing. *)
Lemma dispose_log_quiet s :
  assigned (dispose_log s) = [] /\ enqueued (dispose_log s) = [] /\
  posts (dispose_log s) = [] /\ resolutions (dispose_log s) = [].
Proof.
  repeat split; apply omap_nil; unfold dispose_log;
    rewrite !Forall_app, !Forall_fmap, Forall_bind;
    repeat split; apply Forall_true; intros x; cbn; by repeat constructor.
Qed.

Lemma settlements_dispose_log s :
  settlements (dispose_log s) = (call_promise <$> queue s) ++ inflight s.
Proof.
  unfold dispose_log, inflight. rewrite !settlements_app.
  assert (settlements (EvTerminate (JSVal := JSVal) <$> freeWorkers s) = [])
    as ->.
  { apply omap_nil. rewrite Forall_fmap. by apply Forall_true. }
  cbn [app]. f_equal.
  - induction (queue s) as [|c q IH]; [done|]. cbn. f_equal. exact IH.
  - induction (running s) as [|h hs IH]; [done|]. cbn. f_equal. exact IH.
Qed.

Lemma rejections_dispose_log s :
  rejections (dispose_log s) =
  (fun p => (p, ThreadpoolDisposed)) <$>
    ((call_promise <$> queue s) ++ inflight s).
Proof.
  unfold dispose_log, inflight. rewrite !rejections_app, fmap_app.
  assert (rejections (EvTerminate (JSVal := JSVal) <$> freeWorkers s) = [])
    as ->.
  { apply omap_nil. rewrite Forall_fmap. by apply Forall_true. }
  cbn [app]. f_equal.
  - induction (queue s) as [|c q IH]; [done|]. cbn. f_equal. exact IH.
  - induction (running s) as [|h hs IH]; [done|]. cbn. f_equal. exact IH.
Qed.

Lemma detaches_dispose_log s :
  detaches (dispose_log s) = cl_worker <$> running s.
Proof.
  unfold dispose_log. rewrite !detaches_app.
  assert (detaches (EvTerminate (JSVal := JSVal) <$> freeWorkers s) = [])
    as ->.
  { apply omap_nil. rewrite Forall_fmap. by apply Forall_true. }
  assert (detaches ((fun c => EvReject (JSVal := JSVal) (call_promise c)
                                ThreadpoolDisposed) <$> queue s) = []) as ->.
  { apply omap_nil. rewrite Forall_fmap. by apply Forall_true. }
  cbn [app]. induction (running s) as [|h hs IH]; [done|].
  cbn. f_equal. exact IH.
Qed.

Lemma dispose_busy_eq (hs : list closure) s :
  NoDup (cl_worker <$> hs) ->
  queue s = [] ->
  Forall (fun h => onerror s !! cl_worker h = Some h) hs ->
  dispose_busy (cl_worker <$> hs) s =
  Done (Pool [] (freeWorkers s ++ (cl_worker <$> hs)) (workers s)
             (detach_each (cl_worker <$> hs) (onmessage s))
             (detach_each (cl_worker <$> hs) (onerror s))
             (settle_each (cl_promise <$> hs) (Rejected ThreadpoolDisposed)
                          (promises s))
             (next_promise s)
             (trace s ++
              (hs ≫= fun h => [EvTerminate (cl_worker h); EvDetach (cl_worker h);
                               EvReject (cl_promise h) ThreadpoolDisposed]))).
Proof.
  revert s. induction hs as [|h hs IH]; intros s Hnd Q Hall.
  - cbn. rewrite !app_nil_r. rewrite <- Q. by rewrite pool_eta.
  - cbn [fmap list_fmap dispose_busy] in *.
    apply NoDup_cons in Hnd as (Hh & Hnd).
    apply Forall_cons in Hall as (Hone & Hall).
    change (onerror (emit (EvTerminate (cl_worker h)) s)) with (onerror s).
    rewrite Hone. unfold error_handler, reject.
    rewrite onFinish_idle by done. unfold emit, settle. fields.
    rewrite IH; fields; try done.
    + cbn. by rewrite <- !app_assoc.
    + rewrite Forall_forall in Hall |- *. intros x Hx.
      rewrite lookup_delete_ne; [by apply Hall|].
      intros Heq. apply Hh. rewrite Heq. by apply list_elem_of_fmap_2.
Qed.


(** *** The invariant holds at the start and gives the busy workers *)

Lemma Inv_fresh n : Inv (fresh (JSVal := JSVal) n).
Proof.
  split; cbn; try done.
  - apply NoDup_seq.
  - apply NoDup_seq.
  - intros c Hc. by apply elem_of_nil in Hc.
  - constructor.
  - intros p Hp. by apply elem_of_nil in Hp.
  - split; [constructor|]. intros p Hp. by apply elem_of_nil in Hp.
Qed.

Lemma fresh_promise_pending s :
  Inv s -> promises s !! next_promise s = None.
Proof.
  intros I. destruct (promises s !! next_promise s) eqn:E; [|done].
  apply (inv_settled _ I) in E. lia.
Qed.

Lemma Inv_running s :
  Inv s ->
  cl_worker <$> running s = busy s /\
  Forall (fun h => onerror s !! cl_worker h = Some h) (running s).
Proof.
  intros I. apply closures_of_workers. intros w [Hf Hw]%elem_of_busy.
  destruct (inv_busy _ I w Hw Hf) as [h Hh]. exists h. split; [done|].
  by destruct (inv_onerror _ I w h Hh) as (_ & _ & ?).
Qed.

Lemma detach_busy s : Inv s -> detach_each (busy s) (onerror s) = ∅.
Proof.
  intros I. apply map_eq. intros w. rewrite lookup_detach_each, lookup_empty.
  destruct (decide (w ∈ busy s)) as [D|D]; [done|].
  destruct (onerror s !! w) as [h|] eqn:E; [|done].
  exfalso. apply D, elem_of_busy.
  destruct (inv_onerror _ I w h E) as (? & ? & _). done.
Qed.

Lemma flying_inflight s p : Inv s -> flying s p -> p ∈ inflight s.
Proof.
  intros I (w & h & Hh & <-). unfold inflight, running.
  apply list_elem_of_fmap_2, list_elem_of_omap. exists w. split; [|done].
  apply elem_of_busy. destruct (inv_onerror _ I w h Hh) as (? & ? & _). done.
Qed.

(** [dispose] on a state of the invariant: it returns, and this is the state
    it leaves. *)
Lemma dispose_eq s :
  Inv s ->
  dispose s =
  Done (Pool [] [] [] ∅ ∅
             (settle_each ((call_promise <$> queue s) ++ inflight s)
                          (Rejected ThreadpoolDisposed) (promises s))
             (next_promise s) (trace s ++ dispose_log s)).
Proof.
  intros I. destruct (Inv_running s I) as [Hw Hl].
  unfold dispose. rewrite dispose_idle_eq, dispose_queue_eq. fields.
  rewrite <- Hw at 1.
  rewrite dispose_busy_eq; fields; try done.
  - unfold set_freeWorkers, set_workers. fields.
    rewrite Hw, (inv_handlers _ I), detach_busy by done.
    rewrite settle_each_app. unfold dispose_log, inflight.
    by rewrite <- !app_assoc.
  - rewrite Hw. unfold busy. apply NoDup_filter, (inv_workers _ I).
Qed.

Lemma outstanding_NoDup s :
  Inv s -> NoDup ((call_promise <$> queue s) ++ inflight s).
Proof.
  intros I. destruct (Inv_running s I) as [Hw Hl].
  rewrite Forall_forall in Hl.
  assert (NoDup (cl_worker <$> running s)) as Hnd.
  { rewrite Hw. apply NoDup_filter, (inv_workers _ I). }
  apply NoDup_app. split; [apply (inv_queue_nodup _ I)|]. split.
  - intros p Hq (h & -> & Hh)%list_elem_of_fmap.
    by destruct (inv_flight _ I _ _ (Hl h Hh)) as (_ & ? & _).
  - unfold inflight. clear Hw. revert Hl Hnd.
    induction (running s) as [|h hs IH]; intros Hl Hnd; [constructor|].
    cbn in *. apply NoDup_cons in Hnd as [Hh Hnd]. apply NoDup_cons. split.
    + intros (h' & Heq & Hh')%list_elem_of_fmap. apply Hh.
      assert (cl_worker h = cl_worker h') as ->; [|by apply list_elem_of_fmap_2].
      apply (inv_flight_inj _ I _ _ h h'); [| |done].
      * apply Hl, list_elem_of_here.
      * by apply Hl, list_elem_of_further.
    + apply IH; [|done]. intros x Hx. by apply Hl, list_elem_of_further.
Qed.

(** None of them has been settled by the pool so far. *)
Lemma outstanding_unlogged s (p : promise) :
  Inv s -> p ∈ (call_promise <$> queue s) ++ inflight s ->
  p ∉ settlements (trace s).
Proof.
  intros I. destruct (Inv_running s I) as [_ Hl].
  rewrite Forall_forall in Hl. rewrite elem_of_app.
  intros [(c & -> & Hc)%list_elem_of_fmap | (h & -> & Hh)%list_elem_of_fmap].
  - intros Hin. destruct (proj2 (inv_once _ I) _ Hin) as [x Hx].
    destruct (inv_queue_pending _ I c Hc). congruence.
  - by destruct (inv_flight _ I _ _ (Hl h Hh)) as (_ & _ & ?).
Qed.

(** *** Counting the workers *)

Lemma busy_length s :
  Inv s -> (length (busy s) + length (freeWorkers s) = length (workers s))%nat.
Proof.
  intros I.
  rewrite <- (length_app (busy s) (freeWorkers s)).
  apply Permutation_length.
  rewrite <- (filter_app_complement (fun w => w ∉ freeWorkers s) (workers s)).
  apply Permutation_app; [done|].
  apply NoDup_Permutation.
  - apply (inv_free _ I).
  - apply NoDup_filter, (inv_workers _ I).
  - intros x. rewrite list_elem_of_filter. split.
    + intros Hx. split; [by intros Hn|by apply (inv_free_sub _ I)].
    + intros [Hx _]. by destruct (decide (x ∈ freeWorkers s)).
Qed.

Lemma inflight_length s : Inv s -> length (inflight s) = length (busy s).
Proof.
  intros I. destruct (Inv_running s I) as [Hw _].
  unfold inflight. rewrite length_fmap, <- Hw. by rewrite length_fmap.
Qed.

Lemma running_count s :
  Inv s -> getRunningWorkerCount s = Z.of_nat (length (inflight s)).
Proof.
  intros I. unfold getRunningWorkerCount. rewrite inflight_length by done.
  pose proof (busy_length s I). lia.
Qed.

Lemma free_busy_perm s : Inv s -> freeWorkers s ++ busy s ≡ₚ workers s.
Proof.
  intros I. rewrite Permutation_app_comm.
  rewrite <- (filter_app_complement (fun w => w ∉ freeWorkers s) (workers s)).
  apply Permutation_app; [done|].
  apply NoDup_Permutation.
  - apply (inv_free _ I).
  - apply NoDup_filter, (inv_workers _ I).
  - intros x. rewrite list_elem_of_filter. split.
    + intros Hx. split; [by intros Hn|by apply (inv_free_sub _ I)].
    + intros [Hx _]. by destruct (decide (x ∈ freeWorkers s)).
Qed.

Lemma terminations_dispose_log s :
  Inv s -> terminations (dispose_log s) = freeWorkers s ++ busy s.
Proof.
  intros I. destruct (Inv_running s I) as [<- _].
  unfold dispose_log. rewrite !terminations_app.
  assert (terminations ((fun c => EvReject (JSVal := JSVal) (call_promise c)
                                    ThreadpoolDisposed) <$> queue s) = [])
    as ->.
  { apply omap_nil. rewrite Forall_fmap. by apply Forall_true. }
  cbn [app]. f_equal.
  - induction (freeWorkers s) as [|x l IH]; [done|]. cbn. f_equal. exact IH.
  - induction (running s) as [|h hs IH]; [done|]. cbn. f_equal. exact IH.
Qed.

(** *** One operation at a time *)

Lemma step_effect s o : Inv s -> effect s o (step s o).
Proof.
  intros I. destruct o as [args|w v|w err|].
  - cbn [step].
    destruct (free_cases (freeWorkers s)) as [F | (r & w & F)].
    + rewrite dispatch_queued by done. by apply eff_queue.
    + assert (queue s = []) as Q.
      { destruct (queue s) eqn:Q; [done|].
        rewrite (inv_no_wait _ I) in F; [|by rewrite Q]. by destruct r. }
      assert (onerror s !! w = None) as Hw.
      { destruct (onerror s !! w) as [h|] eqn:Hh; [|done].
        destruct (inv_onerror _ I w h Hh) as (_ & Hn & _).
        exfalso. apply Hn. rewrite F, elem_of_app, list_elem_of_singleton.
        by right. }
      rewrite (dispatch_assigned _ _ r w), Q by done.
      destruct (forallb clonable args) eqn:C.
      * by apply eff_assign.
      * rewrite settle_map_pending by (by apply fresh_promise_pending).
        by apply eff_refuse.
  - destruct (onerror s !! w) as [h|] eqn:Hh.
    + cbn [step]. rewrite (inv_handlers _ I), Hh.
      destruct (inv_onerror _ I w h Hh) as (_ & _ & Hw).
      unfold message_handler, resolve. rewrite Hw.
      destruct (queue s) as [|c q] eqn:Q.
      * rewrite handler_idle by done. by eapply eff_idle.
      * assert (freeWorkers s = []) as F
          by (apply (inv_no_wait _ I); by rewrite Q).
        destruct (forallb clonable (call_args c)) eqn:C.
        -- rewrite (handler_next _ _ _ _ _ c q), F by done.
           by eapply eff_next.
        -- rewrite (handler_raise _ _ _ _ _ c q), F by done.
           by eapply eff_raise.
    + cbn [step]. rewrite (inv_handlers _ I), Hh. by apply (eff_drop _ _ w).
  - destruct (onerror s !! w) as [h|] eqn:Hh.
    + cbn [step]. rewrite Hh.
      destruct (inv_onerror _ I w h Hh) as (_ & _ & Hw).
      unfold error_handler, reject. rewrite Hw.
      destruct (queue s) as [|c q] eqn:Q.
      * rewrite handler_idle by done. by eapply eff_idle.
      * assert (freeWorkers s = []) as F
          by (apply (inv_no_wait _ I); by rewrite Q).
        destruct (forallb clonable (call_args c)) eqn:C.
        -- rewrite (handler_next _ _ _ _ _ c q), F by done.
           by eapply eff_next.
        -- rewrite (handler_raise _ _ _ _ _ c q), F by done.
           by eapply eff_raise.
    + cbn [step]. rewrite Hh. by apply (eff_drop _ _ w).
  - cbn [step]. rewrite dispose_eq by done. apply eff_dispose.
Qed.

(** A dispatch that takes a worker. *)
Lemma Inv_taken args r w (m : gmap promise (settlement JSVal)) s :
  Inv s ->
  freeWorkers s = r ++ [w] -> queue s = [] ->
  (forall p : promise, p <> next_promise s -> m !! p = promises s !! p) ->
  Inv (Pool [] r (workers s)
            (<[w := Closure w (next_promise s)]> (onmessage s))
            (<[w := Closure w (next_promise s)]> (onerror s))
            m (S (next_promise s))
            (trace s ++ [EvAttach w (next_promise s); EvPost w args])).
Proof.
  intros I E Q Hm. pose proof (fresh_promise_pending s I) as Hp.
  destruct I. rewrite E in *. apply NoDup_app in inv_free0 as (Hr & Hw & _).
  destruct inv_once0 as [Hnd Hrec].
  assert (forall p : promise, p ∈ settlements (trace s) ->
            (p < next_promise s)%nat) as Hlog.
  { intros p Hin. destruct (Hrec p Hin) as [x Hx]. eauto. }
  split; fields.
  - done.
  - done.
  - intros w' Hw'. apply inv_free_sub0. rewrite elem_of_app. by left.
  - by rewrite inv_handlers0.
  - intros w' h. rewrite lookup_insert. case_decide as D.
    + intros [= <-]. subst w'. cbn. split; [|split; [|done]].
      * apply inv_free_sub0. rewrite elem_of_app, list_elem_of_singleton.
        by right.
      * intros Hin. apply (Hw _ Hin). by apply list_elem_of_singleton.
    + intros Hh. destruct (inv_onerror0 w' h Hh) as (? & Hn & ?).
      split; [done|]. split; [|done]. intros Hin. apply Hn.
      rewrite elem_of_app. by left.
  - intros w' Hw' Hn. rewrite lookup_insert. case_decide; [by eexists|].
    apply inv_busy0; [done|]. rewrite elem_of_app, list_elem_of_singleton.
    intros [?|?]; [done|congruence].
  - done.
  - intros c Hc. by apply elem_of_nil in Hc.
  - constructor.
  - rewrite settlements_app.
    change (settlements [EvAttach w (next_promise s); EvPost w args])
      with (@nil promise).
    rewrite app_nil_r.
    intros w' h. rewrite lookup_insert. case_decide.
    + intros [= <-]. cbn. split; [lia|]. split; [apply not_elem_of_nil|].
      intros Hin. apply Hlog in Hin. lia.
    + intros Hh. destruct (inv_flight0 w' h Hh) as (? & ? & ?).
      split; [lia|]. split; [apply not_elem_of_nil|done].
  - intros w1 w2 h1 h2. rewrite !lookup_insert.
    repeat case_decide; subst; try done.
    + intros [= <-] Hh. cbn. intros Heq.
      destruct (inv_flight0 _ _ Hh). lia.
    + intros Hh [= <-]. cbn. intros Heq.
      destruct (inv_flight0 _ _ Hh). lia.
    + eauto.
  - intros p o Ho. destruct (decide (p = next_promise s)) as [->|Hne]; [lia|].
    rewrite Hm in Ho by done. apply inv_settled0 in Ho. lia.
  - intros p. rewrite assigned_app, enqueued_app. cbn.
    rewrite app_nil_r. rewrite !elem_of_app, list_elem_of_singleton.
    intros [[H| ->]|H]; [|lia|].
    + assert (p < next_promise s)%nat; [|lia]. apply inv_logged0.
      rewrite elem_of_app. by left.
    + assert (p < next_promise s)%nat; [|lia]. apply inv_logged0.
      rewrite elem_of_app. by right.
  - unfold settled_once. fields. rewrite settlements_app.
    change (settlements [EvAttach w (next_promise s); EvPost w args])
      with (@nil promise).
    rewrite app_nil_r. split; [done|]. intros p Hin.
    rewrite Hm; [by apply Hrec|]. apply Hlog in Hin. lia.
Qed.

(** A handler that has run [onFinish], and settled its promise or not. *)
Lemma Inv_finished w h (f : list worker) (q : list (call JSVal))
    (ho : option closure) (m : gmap promise (settlement JSVal))
    (d : list (event JSVal)) s :
  Inv s -> onerror s !! w = Some h ->
  (queue s = [] /\ q = [] /\ f = freeWorkers s ++ [w] /\ ho = None /\
   assigned d = [] \/
   exists c, queue s = c :: q /\ f = [] /\
             ho = Some (Closure w (call_promise c)) /\
             assigned d = [call_promise c]) ->
  enqueued d = [] ->
  (settlements d = [] /\ m = promises s \/
   exists out, settlements d = [cl_promise h] /\
               m = settle_map (cl_promise h) out (promises s)) ->
  Inv (Pool q f (workers s)
            (match ho with
             | Some x => <[w := x]> (delete w (onmessage s))
             | None => delete w (onmessage s)
             end)
            (match ho with
             | Some x => <[w := x]> (delete w (onerror s))
             | None => delete w (onerror s)
             end)
            m (next_promise s) (trace s ++ d)).
Proof.
  intros I Hh Hshape Eq Hset.
  destruct (inv_onerror _ I _ _ Hh) as (Hw & Hnf & Hcw).
  destruct (inv_flight _ I _ _ Hh) as (Hlt & Hnq & Hnl).
  destruct (inv_once _ I) as [Hnd Hrec].
  assert (forall p : promise, is_Some (promises s !! p) -> is_Some (m !! p))
    as Hkeep.
  { intros p [x Hx]. destruct Hset as [[_ ->]|(out & _ & ->)]; [by eexists|].
    rewrite lookup_settle_map, Hx. by eexists. }
  assert (forall p : promise, p <> cl_promise h -> m !! p = promises s !! p)
    as Hother.
  { intros p Hne. destruct Hset as [[_ ->]|(out & _ & ->)]; [done|].
    rewrite lookup_settle_map. case_match; [done|]. by rewrite decide_False. }
  assert (forall p x, m !! p = Some x -> (p < next_promise s)%nat) as Hbound.
  { intros p x Hx. destruct (decide (p = cl_promise h)) as [->|Hne]; [done|].
    rewrite Hother in Hx by done. by apply (inv_settled _ I p x). }
  assert (settled_once (Pool q f (workers s)
            (match ho with
             | Some x => <[w := x]> (delete w (onmessage s))
             | None => delete w (onmessage s)
             end)
            (match ho with
             | Some x => <[w := x]> (delete w (onerror s))
             | None => delete w (onerror s)
             end)
            m (next_promise s) (trace s ++ d))) as Honce.
  { unfold settled_once. fields. rewrite settlements_app.
    destruct Hset as [[-> ->]|(out & -> & ->)].
    - by rewrite app_nil_r.
    - split.
      + apply NoDup_app. split; [done|]. split; [|apply NoDup_singleton].
        intros p Hin ->%list_elem_of_singleton. done.
      + intros p [Hin| ->%list_elem_of_singleton]%elem_of_app.
        * rewrite lookup_settle_map. destruct (Hrec p Hin) as [x ->].
          by eexists.
        * rewrite lookup_settle_map. case_match; [by eexists|].
          rewrite decide_True by done. by eexists. }
  assert (forall p : promise, p ∈ settlements (trace s ++ d) ->
            p ∈ settlements (trace s) \/ p = cl_promise h) as Hsplit.
  { intros p. rewrite settlements_app, elem_of_app.
    destruct Hset as [[-> _]|(out & -> & _)].
    - intros [?|Hin]; [by left|by apply elem_of_nil in Hin].
    - rewrite list_elem_of_singleton. tauto. }
  destruct Hshape as [(Q & -> & -> & -> & Ea)|(c & Q & -> & -> & Ea)].
  - destruct I. split; fields.
    + done.
    + apply NoDup_app. split; [done|]. split; [|apply NoDup_singleton].
      intros x Hx ->%list_elem_of_singleton. done.
    + intros x [Hx | ->%list_elem_of_singleton]%elem_of_app; eauto.
    + by rewrite inv_handlers0.
    + intros x hx. rewrite lookup_delete. case_decide; [done|].
      intros Hx. destruct (inv_onerror0 x hx Hx) as (? & ? & ?).
      split; [done|]. split; [|done].
      rewrite elem_of_app, list_elem_of_singleton.
      intros [?|?]; [done|congruence].
    + intros x Hx Hn. rewrite lookup_delete. case_decide as D.
      * subst x. exfalso. apply Hn.
        rewrite elem_of_app, list_elem_of_singleton. by right.
      * apply inv_busy0; [done|]. intros Hin. apply Hn.
        rewrite elem_of_app. by left.
    + done.
    + intros c Hc. by apply elem_of_nil in Hc.
    + constructor.
    + intros x hx. rewrite lookup_delete. case_decide as D; [done|].
      intros Hx. destruct (inv_flight0 x hx Hx) as (? & ? & ?).
      split; [done|]. split; [apply not_elem_of_nil|].
      intros [Hin|Heq]%Hsplit; [done|].
      apply D. by apply (inv_flight_inj0 w x h hx).
    + intros w1 w2 h1 h2. rewrite !lookup_delete.
      repeat case_decide; try done. eauto.
    + exact Hbound.
    + intros p'. rewrite assigned_app, enqueued_app, Ea, Eq, !app_nil_r. eauto.
    + exact Honce.
  - assert (freeWorkers s = []) as F
      by (apply (inv_no_wait _ I); by rewrite Q).
    assert (c ∈ queue s) as Hc by (rewrite Q; apply list_elem_of_here).
    destruct (inv_queue_pending _ I c Hc) as (Hclt & Hcpend).
    pose proof (inv_queue_nodup _ I) as Hndq. rewrite Q in Hndq, Hnq.
    cbn in Hndq, Hnq. apply NoDup_cons in Hndq as (Hcq & Hndq).
    apply not_elem_of_cons in Hnq as (Hpc & Hpq).
    assert (call_promise c ∉ settlements (trace s)) as Hcl.
    { intros Hin. destruct (Hrec _ Hin). congruence. }
    destruct I. rewrite Q, F in *. split; fields.
    + done.
    + constructor.
    + intros x Hx. by apply elem_of_nil in Hx.
    + by rewrite inv_handlers0.
    + intros x hx. rewrite lookup_insert. case_decide as D.
      * intros [= <-]. subst x. split; [done|]. split; [|done].
        apply not_elem_of_nil.
      * rewrite lookup_delete_ne by done. intros Hx.
        destruct (inv_onerror0 x hx Hx) as (? & ? & ?). done.
    + intros x Hx Hn. rewrite lookup_insert. case_decide; [by eexists|].
      rewrite lookup_delete_ne by done. eauto.
    + done.
    + intros c' Hc'.
      assert (c' ∈ c :: q) as Hin by (by apply list_elem_of_further).
      destruct (inv_queue_pending0 c' Hin). split; [done|].
      rewrite Hother; [done|]. intros Heq. apply Hpq.
      rewrite <- Heq. by apply list_elem_of_fmap_2.
    + done.
    + intros x hx. rewrite lookup_insert. case_decide as D.
      * intros [= <-]. fields. split; [done|]. split; [done|].
        intros [Hin|Heq]%Hsplit; [done|]. by apply Hpc.
      * rewrite lookup_delete_ne by done. intros Hx.
        destruct (inv_flight0 x hx Hx) as (? & Hn' & ?).
        cbn in Hn'. apply not_elem_of_cons in Hn' as (? & ?).
        split; [done|]. split; [done|].
        intros [Hin|Heq]%Hsplit; [done|].
        apply D. by apply (inv_flight_inj0 w x h hx).
    + intros w1 w2 h1 h2. rewrite !lookup_insert.
      repeat case_decide; subst; try done.
      * intros [= <-]. rewrite lookup_delete_ne by done. intros H2. fields.
        intros Heq. destruct (inv_flight0 _ _ H2) as (_ & Hn' & _).
        exfalso. apply Hn'. cbn. rewrite Heq. apply list_elem_of_here.
      * rewrite lookup_delete_ne by done. intros H1 [= <-]. fields.
        intros Heq. destruct (inv_flight0 _ _ H1) as (_ & Hn' & _).
        exfalso. apply Hn'. cbn. rewrite <- Heq. apply list_elem_of_here.
      * rewrite !lookup_delete_ne by done. eauto.
    + exact Hbound.
    + intros p'. rewrite assigned_app, enqueued_app, Ea, Eq, !app_nil_r.
      rewrite !elem_of_app, list_elem_of_singleton.
      intros [[H| ->]|H]; [|done|]; apply inv_logged0; rewrite elem_of_app;
        eauto.
    + exact Honce.
Qed.

Lemma Inv_dispose_state s :
  Inv s ->
  Inv (Pool [] [] [] ∅ ∅
            (settle_each ((call_promise <$> queue s) ++ inflight s)
                         (Rejected ThreadpoolDisposed) (promises s))
            (next_promise s) (trace s ++ dispose_log s)).
Proof.
  intros I. destruct (Inv_running s I) as [Hw Hl].
  split; fields.
  - constructor.
  - constructor.
  - intros w Hw'. by apply elem_of_nil in Hw'.
  - done.
  - intros w h. by rewrite lookup_empty.
  - intros w Hw'. by apply elem_of_nil in Hw'.
  - done.
  - intros c Hc. by apply elem_of_nil in Hc.
  - constructor.
  - intros w h. by rewrite lookup_empty.
  - intros w w' h h'. by rewrite lookup_empty.
  - intros p o. rewrite lookup_settle_each.
    case_match eqn:E.
    + intros _. by apply (inv_settled _ I p _ E).
    + case_match eqn:E'; [|done]. clear E'. rename e into D. intros _.
      apply elem_of_app in D as [D|D].
      * apply list_elem_of_fmap in D as (c & -> & Hc).
        by destruct (inv_queue_pending _ I c Hc).
      * apply list_elem_of_fmap in D as (h & -> & Hh).
        rewrite Forall_forall in Hl.
        by destruct (inv_flight _ I _ _ (Hl h Hh)).
  - intros p. rewrite assigned_app, enqueued_app.
    destruct (dispose_log_quiet s) as (-> & -> & _).
    rewrite !app_nil_r. apply (inv_logged _ I).
  - destruct (inv_once _ I) as [Hnd Hrec]. unfold settled_once. fields.
    rewrite settlements_app, settlements_dispose_log. split.
    + apply NoDup_app. split; [done|]. split; [|by apply outstanding_NoDup].
      intros p Hin Hout. by apply (outstanding_unlogged s p I Hout).
    + intros p Hin. rewrite lookup_settle_each.
      apply elem_of_app in Hin as [Hin|Hin].
      * destruct (Hrec _ Hin) as [x Hx]. rewrite Hx. by eexists.
      * case_match; [by eexists|]. rewrite decide_True by done. by eexists.
Qed.

(** The invariant holds after every operation, whether it returned or was
    left by an exception. *)
Lemma Inv_effect s o r : Inv s -> effect s o r -> Inv (state_of r).
Proof.
  intros I E.
  destruct E as [args F|args r w F Q Hw C|args r w F Q Hw C
                |o w h out e So Hh Ho He Q|o w h out e c q So Hh Ho He Q F C
                |o w h c q So Hh Q F C|o w So Hh|]; cbn [state_of].
  - pose proof (fresh_promise_pending s I) as Hp.
    destruct I. destruct inv_once0 as [Hnd Hrec]. rewrite F in *.
    split; fields.
    + done.
    + constructor.
    + done.
    + done.
    + done.
    + done.
    + done.
    + intros c [Hc| ->%list_elem_of_singleton]%elem_of_app.
      * destruct (inv_queue_pending0 c Hc). split; [lia|done].
      * cbn. split; [lia|done].
    + rewrite fmap_app. cbn. apply NoDup_app. split; [done|].
      split; [|apply NoDup_singleton].
      intros p [c [-> Hc]]%list_elem_of_fmap.
      rewrite list_elem_of_singleton.
      destruct (inv_queue_pending0 c Hc). lia.
    + intros w h Hh. destruct (inv_flight0 w h Hh) as (? & ? & ?).
      split; [lia|]. split.
      * rewrite fmap_app. cbn. rewrite elem_of_app, list_elem_of_singleton.
        intros [?|?]; [done|lia].
      * rewrite settlements_app.
        change (settlements [EvQueued (next_promise s)]) with (@nil promise).
        by rewrite app_nil_r.
    + done.
    + intros p o Ho. apply inv_settled0 in Ho. lia.
    + intros p. rewrite assigned_app, enqueued_app. cbn.
      rewrite app_nil_r, app_assoc, elem_of_app, list_elem_of_singleton.
      intros [H| ->]; [|lia]. apply inv_logged0 in H. lia.
    + unfold settled_once. fields. rewrite settlements_app.
      change (settlements [EvQueued (next_promise s)]) with (@nil promise).
      by rewrite app_nil_r.
  - by apply Inv_taken.
  - apply Inv_taken; try done. intros p Hne. by rewrite lookup_insert_ne.
  - apply (Inv_finished w h _ _ None _ [EvDetach w; e]); [done|done| | |].
    + left. repeat split; try done.
      change (assigned [EvDetach w; e]) with (assigned [e]).
      by destruct (outcome_event_silent _ _ _ He) as (? & ? & ?).
    + change (enqueued [EvDetach w; e]) with (enqueued [e]).
      by destruct (outcome_event_silent _ _ _ He) as (? & ? & ?).
    + right. exists out. split; [|done].
      change (settlements [EvDetach w; e]) with (settlements [e]).
      by destruct (outcome_event_silent _ _ _ He) as (? & ? & ?).
  - destruct (outcome_event_silent _ _ _ He) as (Ea & Eq & Es).
    apply (Inv_finished w h _ _ (Some (Closure w (call_promise c))) _
             [EvDetach w; EvAttach w (call_promise c);
              EvPost w (call_args c); e]); [done|done| | |].
    + right. exists c. repeat split; try done.
      change (assigned [EvDetach w; EvAttach w (call_promise c);
                        EvPost w (call_args c); e])
        with (call_promise c :: assigned [e]). by rewrite Ea.
    + change (enqueued [EvDetach w; EvAttach w (call_promise c);
                        EvPost w (call_args c); e])
        with (enqueued [e]). done.
    + right. exists out. split; [|done].
      change (settlements [EvDetach w; EvAttach w (call_promise c);
                           EvPost w (call_args c); e])
        with (settlements [e]). done.
  - apply (Inv_finished w h _ _ (Some (Closure w (call_promise c))) _
             [EvDetach w; EvAttach w (call_promise c);
              EvPost w (call_args c)]); [done|done| | |].
    + right. exists c. by repeat split.
    + done.
    + by left.
  - done.
  - by apply Inv_dispose_state.
Qed.

Lemma Inv_step s o : Inv s -> Inv (state_of (step s o)).
Proof. intros I. by apply (Inv_effect s o), step_effect. Qed.

Lemma Inv_dispose s : Inv s -> Inv (state_of (dispose s)).
Proof. apply (Inv_step s Dispose). Qed.

Lemma Inv_dispatch args s : Inv s -> Inv (dispatch args s).
Proof. apply (Inv_step s (Dispatch args)). Qed.

Lemma Inv_run ops s : Inv s -> Inv (run ops s).
Proof.
  intros I. induction ops as [|o ops IH] using rev_ind; [done|].
  rewrite run_snoc. by apply Inv_step.
Qed.

Lemma Inv_reachable n ops : Inv (run ops (fresh (JSVal := JSVal) n)).
Proof. apply Inv_run, Inv_fresh. Qed.

Lemma once_reachable n ops : settled_once (run ops (fresh (JSVal := JSVal) n)).
Proof. apply inv_once, Inv_reachable. Qed.

(** Induction over the states a run reaches, operation by operation. *)
Lemma reachable_ind (n : nat) (P : list (op JSVal) -> pool JSVal -> Prop) :
  P [] (fresh n) ->
  (forall ops s o r, s = run ops (fresh n) -> Inv s -> P ops s ->
                     effect s o r -> P (ops ++ [o]) (state_of r)) ->
  forall ops, P ops (run ops (fresh n)).
Proof.
  intros H0 Hs ops. induction ops as [|o ops IH] using rev_ind; [done|].
  rewrite run_snoc.
  apply (Hs ops (run ops (fresh n)) o); [done|apply Inv_reachable|done|].
  apply step_effect, Inv_reachable.
Qed.

(** *** What the log of a run says *)

Lemma since_dispatch_queued args s :
  freeWorkers s = [] ->
  since s (dispatch args s) = [EvQueued (next_promise s)].
Proof. intros F. apply since_app. by rewrite dispatch_queued. Qed.

Lemma since_dispatch_assigned args s r w :
  freeWorkers s = r ++ [w] ->
  since s (dispatch args s) = [EvAttach w (next_promise s); EvPost w args].
Proof. intros F. apply since_app. by rewrite (dispatch_assigned _ _ r w). Qed.

(** *** Before [dispose]: the set of workers and the order of service *)

Lemma workers_effect s o r :
  effect s o r -> is_dispose o = false -> workers (state_of r) = workers s.
Proof. by destruct 1. Qed.

Lemma live_workers n ops :
  live ops -> workers (run ops (fresh (JSVal := JSVal) n)) = seq 0 n.
Proof.
  induction ops as [|o ops IH] using rev_ind; [done|].
  intros [L D]%live_snoc. rewrite run_snoc.
  rewrite (workers_effect (run ops (fresh n)) o (step (run ops (fresh n)) o));
    [auto|apply step_effect, Inv_reachable|done].
Qed.

Lemma fifo_effect s o r :
  Inv s -> effect s o r -> is_dispose o = false -> fifo s -> fifo (state_of r).
Proof.
  intros I E D H. unfold fifo, served in *.
  assert (forall args w, filter (fun x => x ∈ enqueued (trace s))
            (assigned (trace s ++ [EvAttach w (next_promise s); EvPost w args]))
          = filter (fun x => x ∈ enqueued (trace s)) (assigned (trace s)))
    as Htaken.
  { intros args w. rewrite assigned_app.
    change (assigned [EvAttach w (next_promise s); EvPost w args])
      with [next_promise s].
    rewrite filter_app, filter_cons, decide_False.
    - by rewrite filter_nil, app_nil_r.
    - intros Hin. assert (next_promise s < next_promise s)%nat; [|lia].
      apply (inv_logged _ I). rewrite elem_of_app. by right. }
  destruct E as [args F|args r w F Q Hw C|args r w F Q Hw C
                |o w h out e So Hh Ho He Q|o w h out e c q So Hh Ho He Q F C
                |o w h c q So Hh Q F C|o w So Hh|]; cbn [state_of]; fields;
    try done.
  - rewrite assigned_app, enqueued_app, fmap_app.
    change (assigned [EvQueued (next_promise s)]) with (@nil promise).
    change (enqueued [EvQueued (next_promise s)]) with [next_promise s].
    rewrite app_nil_r.
    assert (filter (fun x => x ∈ enqueued (trace s) ++ [next_promise s])
                   (assigned (trace s)) =
            filter (fun x => x ∈ enqueued (trace s)) (assigned (trace s))) as ->.
    { apply filter_ext_elem. intros x Hx.
      rewrite elem_of_app, list_elem_of_singleton.
      split; [|by left]. intros [?| ->]; [done|].
      assert (next_promise s < next_promise s)%nat; [|lia].
      apply (inv_logged _ I). rewrite elem_of_app. by left. }
    cbn. by rewrite app_assoc, H.
  - rewrite enqueued_app.
    change (enqueued [EvAttach w (next_promise s); EvPost w args])
      with (@nil promise).
    rewrite !app_nil_r, Htaken. by rewrite Q, !app_nil_r in H.
  - rewrite enqueued_app.
    change (enqueued [EvAttach w (next_promise s); EvPost w args])
      with (@nil promise).
    rewrite !app_nil_r, Htaken. by rewrite Q, !app_nil_r in H.
  - destruct (outcome_event_silent _ _ _ He) as (Ea & Eq & Es).
    rewrite assigned_app, enqueued_app.
    change (assigned [EvDetach w; e]) with (assigned [e]).
    change (enqueued [EvDetach w; e]) with (enqueued [e]).
    rewrite Ea, Eq, !app_nil_r. by rewrite Q, !app_nil_r in H.
  - destruct (outcome_event_silent _ _ _ He) as (Ea & Eq & Es).
    rewrite assigned_app, enqueued_app.
    change (assigned [EvDetach w; EvAttach w (call_promise c);
                      EvPost w (call_args c); e])
      with (call_promise c :: assigned [e]).
    change (enqueued [EvDetach w; EvAttach w (call_promise c);
                      EvPost w (call_args c); e])
      with (enqueued [e]).
    rewrite Ea, Eq, !app_nil_r, filter_app, filter_cons.
    rewrite Q in H. rewrite decide_True.
    + cbn. rewrite <- app_assoc. exact H.
    + rewrite <- H. rewrite elem_of_app. right. apply list_elem_of_here.
  - rewrite assigned_app, enqueued_app.
    change (assigned [EvDetach w; EvAttach w (call_promise c);
                      EvPost w (call_args c)])
      with [call_promise c].
    change (enqueued [EvDetach w; EvAttach w (call_promise c);
                      EvPost w (call_args c)])
      with (@nil promise).
    rewrite !app_nil_r, filter_app, filter_cons.
    rewrite Q in H. rewrite decide_True.
    + cbn. rewrite <- app_assoc. exact H.
    + rewrite <- H. rewrite elem_of_app. right. apply list_elem_of_here.
Qed.

Lemma live_fifo n ops : live ops -> fifo (run ops (fresh (JSVal := JSVal) n)).
Proof.
  induction ops as [|o ops IH] using rev_ind; [done|].
  intros [L D]%live_snoc. rewrite run_snoc.
  apply (fifo_effect (run ops (fresh n)) o);
    [apply Inv_reachable|apply step_effect, Inv_reachable|done|auto].
Qed.

(** *** After [dispose] *)

Lemma Dead_dispose s : Inv s -> Dead (state_of (dispose s)).
Proof. intros I. rewrite dispose_eq by done. by split. Qed.

Lemma Dead_step s o : Inv s -> Dead s -> Dead (state_of (step s o)).
Proof.
  intros I [F W M E]. destruct o as [args|w v|w e|]; cbn [step].
  - cbn [state_of]. rewrite dispatch_queued by done. by split.
  - rewrite M, lookup_empty. by split.
  - rewrite E, lookup_empty. by split.
  - by apply Dead_dispose.
Qed.

Lemma disposed_Dead n ops :
  disposed ops -> Dead (run ops (fresh (JSVal := JSVal) n)).
Proof.
  unfold disposed. induction ops as [|o ops IH] using rev_ind; [done|].
  rewrite existsb_app, orb_true_iff, run_snoc. cbn. rewrite orb_false_r.
  intros [H|H].
  - apply Dead_step; [apply Inv_reachable|auto].
  - destruct o; try done. apply Dead_dispose, Inv_reachable.
Qed.

(** Without a further [dispose], a disposed pool settles nothing and only
    lengthens its queue. *)
Lemma Dead_live_run ops s :
  Dead s -> live ops ->
  Dead (run ops s) /\ promises (run ops s) = promises s /\
  exists more, queue (run ops s) = queue s ++ more.
Proof.
  intros D. induction ops as [|o ops IH] using rev_ind; intros L.
  - repeat split; try apply D. exists []. by rewrite app_nil_r.
  - apply live_snoc in L as [L Ho]. destruct (IH L) as ([F W M E] & Hp & more & Hq).
    rewrite run_snoc. destruct o as [args|w v|w e|]; cbn [step]; try done.
    + cbn [state_of]. rewrite dispatch_queued by done. fields.
      split; [by split|]. split; [done|].
      eexists. by rewrite Hq, <- app_assoc.
    + rewrite M, lookup_empty. cbn [state_of]. split; [by split|]. eauto.
    + rewrite E, lookup_empty. cbn [state_of]. split; [by split|]. eauto.
Qed.

(** *** Runs in which every argument can be cloned *)

Lemma clonable_ops_snoc (ops : list (op JSVal)) o :
  clonable_ops (ops ++ [o]) <-> clonable_ops ops /\ clonable_ops [o].
Proof.
  unfold clonable_ops. rewrite forallb_app, andb_true_iff. done.
Qed.

Lemma clonable_dispatch (args : list JSVal) :
  clonable_ops [Dispatch args] <-> forallb clonable args = true.
Proof. unfold clonable_ops. cbn. by rewrite andb_true_r. Qed.

Lemma Sound_fresh n : Sound (fresh (JSVal := JSVal) n).
Proof.
  split; cbn.
  - intros c Hc. by apply elem_of_nil in Hc.
  - intros w h. by rewrite lookup_empty.
  - intros p Hp. lia.
Qed.

(** As long as every argument can be cloned, no operation is left by an
    exception, and the promise of a handler is pending. *)
Lemma Sound_effect s o r :
  Inv s -> Sound s -> clonable_ops [o] -> effect s o r ->
  Sound (state_of r) /\ r = Done (state_of r).
Proof.
  intros I [Sq Sf Sa] Hc E.
  destruct E as [args F|args r w F Q Hw C|args r w F Q Hw C
                |o w h out e So Hh Ho He Q|o w h out e c q So Hh Ho He Q F C
                |o w h c q So Hh Q F C|o w So Hh|]; cbn [state_of].
  - split; [|done]. apply (proj1 (clonable_dispatch args)) in Hc. split; fields.
    + intros c [Hin| ->%list_elem_of_singleton]%elem_of_app; [eauto|done].
    + done.
    + intros p Hlt. destruct (decide (p = next_promise s)) as [->|Hne].
      * right. left. rewrite fmap_app, elem_of_app. right.
        apply list_elem_of_here.
      * destruct (Sa p) as [?|[?|?]]; [lia|by left| |by right; right].
        right. left. rewrite fmap_app, elem_of_app. by left.
  - split; [|done]. split; fields.
    + intros c Hin. by apply elem_of_nil in Hin.
    + intros w' h. rewrite lookup_insert. case_decide.
      * intros [= <-]. cbn. by apply fresh_promise_pending.
      * apply Sf.
    + intros p Hlt. destruct (decide (p = next_promise s)) as [->|Hne].
      * right. right. exists w, (Closure w (next_promise s)).
        by rewrite lookup_insert_eq.
      * destruct (Sa p) as [?|[Hq|(w' & h' & Hh' & Hp')]]; [lia|by left| |].
        -- rewrite Q in Hq. by apply elem_of_nil in Hq.
        -- right. right. exists w', h'. split; [|done].
           rewrite lookup_insert_ne; [done|]. congruence.
  - apply (proj1 (clonable_dispatch args)) in Hc. congruence.
  - split; [|done]. split; fields.
    + intros c Hin. by apply elem_of_nil in Hin.
    + intros w' h'. rewrite lookup_delete. case_decide as D; [done|].
      intros Hh'. rewrite lookup_settle_map, (Sf _ _ Hh').
      rewrite decide_False; [done|]. intros Heq. apply D.
      by apply (inv_flight_inj _ I w w' h h').
    + intros p Hlt. rewrite lookup_settle_map.
      destruct (Sa p Hlt) as [[x Hx]|[Hq|(w' & h' & Hh' & Hp')]].
      * left. rewrite Hx. by eexists.
      * rewrite Q in Hq. by apply elem_of_nil in Hq.
      * destruct (decide (w' = w)) as [->|Hne].
        -- left. assert (h' = h) as -> by congruence. subst p.
           case_match; [by eexists|]. rewrite decide_True by done.
           by eexists.
        -- right. right. exists w', h'. by rewrite lookup_delete_ne.
  - split; [|done].
    destruct (inv_flight _ I _ _ Hh) as (_ & Hnq & _).
    rewrite Q in Hnq. cbn in Hnq. apply not_elem_of_cons in Hnq as (Hpc & Hpq).
    assert (c ∈ queue s) as Hin by (rewrite Q; apply list_elem_of_here).
    split; fields.
    + intros c' Hc'. apply Sq. rewrite Q. by apply list_elem_of_further.
    + intros w' h'. rewrite lookup_insert. case_decide as D.
      * intros [= <-]. cbn. rewrite lookup_settle_map.
        destruct (inv_queue_pending _ I c Hin) as (_ & ->).
        by rewrite decide_False.
      * rewrite lookup_delete_ne by done.
        intros Hh'. rewrite lookup_settle_map, (Sf _ _ Hh').
        rewrite decide_False; [done|]. intros Heq. apply D.
        by apply (inv_flight_inj _ I w w' h h').
    + intros p Hlt. rewrite lookup_settle_map.
      destruct (Sa p Hlt) as [[x Hx]|[Hq|(w' & h' & Hh' & Hp')]].
      * left. rewrite Hx. by eexists.
      * rewrite Q in Hq. cbn in Hq. apply elem_of_cons in Hq as [->|Hq].
        -- right. right. exists w, (Closure w (call_promise c)).
           by rewrite lookup_insert_eq.
        -- right. by left.
      * destruct (decide (w' = w)) as [->|Hne].
        -- left. assert (h' = h) as -> by congruence. subst p.
           case_match; [by eexists|]. rewrite decide_True by done.
           by eexists.
        -- right. right. exists w', h'.
           by rewrite lookup_insert_ne, lookup_delete_ne.
  - assert (c ∈ queue s) as Hin by (rewrite Q; apply list_elem_of_here).
    apply Sq in Hin. congruence.
  - split; [|done]. by split.
  - split; [|done]. split; fields.
    + intros c Hin. by apply elem_of_nil in Hin.
    + intros w h. by rewrite lookup_empty.
    + intros p Hlt. left. rewrite lookup_settle_each.
      destruct (Sa p Hlt) as [[x Hx]|[Hq|Hf]].
      * rewrite Hx. by eexists.
      * case_match; [by eexists|]. rewrite decide_True; [by eexists|].
        rewrite elem_of_app. by left.
      * case_match; [by eexists|]. rewrite decide_True; [by eexists|].
        rewrite elem_of_app. right. by apply flying_inflight.
Qed.

Lemma Sound_reachable n ops :
  clonable_ops ops -> Sound (run ops (fresh (JSVal := JSVal) n)).
Proof.
  induction ops as [|o ops IH] using rev_ind; [intros _; apply Sound_fresh|].
  intros [Hc Ho]%clonable_ops_snoc. rewrite run_snoc.
  apply (Sound_effect (run ops (fresh n)) o); auto using Inv_reachable.
  apply step_effect, Inv_reachable.
Qed.

(** *** A notification of a busy worker *)

Lemma settles_inj (o : op JSVal) (w w' : worker) :
  settles o w -> settles o w' -> w = w'.
Proof. destruct o; cbn; intros; by subst. Qed.

(** The three ways a handler can go. *)
Lemma notified s o w h :
  Inv s -> settles o w -> onerror s !! w = Some h ->
  exists out e,
    outcome o = Some out /\ outcome_event (cl_promise h) o = Some e /\
    match queue s with
    | [] =>
        step s o =
        Done (Pool [] (freeWorkers s ++ [w]) (workers s)
                   (delete w (onmessage s)) (delete w (onerror s))
                   (settle_map (cl_promise h) out (promises s))
                   (next_promise s) (trace s ++ [EvDetach w; e]))
    | c :: q =>
        freeWorkers s = [] /\
        step s o =
        if forallb clonable (call_args c)
        then Done (Pool q [] (workers s)
                   (<[w := Closure w (call_promise c)]> (delete w (onmessage s)))
                   (<[w := Closure w (call_promise c)]> (delete w (onerror s)))
                   (settle_map (cl_promise h) out (promises s))
                   (next_promise s)
                   (trace s ++ [EvDetach w; EvAttach w (call_promise c);
                                EvPost w (call_args c); e]))
        else Raised (Pool q [] (workers s)
                   (<[w := Closure w (call_promise c)]> (delete w (onmessage s)))
                   (<[w := Closure w (call_promise c)]> (delete w (onerror s)))
                   (promises s) (next_promise s)
                   (trace s ++ [EvDetach w; EvAttach w (call_promise c);
                                EvPost w (call_args c)]))
    end.
Proof.
  intros I So Hh. pose proof (step_effect s o I) as E.
  assert (exists out e, outcome o = Some out /\
            outcome_event (cl_promise h) o = Some e) as (out & e & Ho & He).
  { destruct o; try done; by eexists _, _. }
  exists out, e. split; [done|]. split; [done|].
  remember (step s o) as r eqn:Hr. clear Hr.
  destruct E as [args F|args r w' F Q Hw C|args r w' F Q Hw C
                |o w' h' out' e' So' Hh' Ho' He' Q
                |o w' h' out' e' c q So' Hh' Ho' He' Q F C
                |o w' h' c q So' Hh' Q F C|o w' So' Hh'|]; try done.
  - assert (w' = w) as -> by (by apply (settles_inj o)).
    assert (h' = h) as -> by congruence.
    assert (out' = out) as -> by congruence.
    assert (e' = e) as -> by congruence.
    by rewrite Q.
  - assert (w' = w) as -> by (by apply (settles_inj o)).
    assert (h' = h) as -> by congruence.
    assert (out' = out) as -> by congruence.
    assert (e' = e) as -> by congruence.
    by rewrite Q, C.
  - assert (w' = w) as -> by (by apply (settles_inj o)).
    assert (h' = h) as -> by congruence.
    by rewrite Q, C.
  - assert (w' = w) as -> by (by apply (settles_inj o)). congruence.
Qed.

End Invariant.

(** ** The claims of the specification *)

Section Properties.

Context {JSVal : Type} {JSVal_clonable : Clonable JSVal}.
Implicit Types (s : pool JSVal) (t : list (event JSVal)) (c : call JSVal).

(** C2. Before [dispose]: the calls that went through the queue were
    assigned in exactly the order in which they were queued, and those still
    waiting are the rest of that order ([dispatch] appends at the tail, a
    notification serves the head).  The free workers form a stack:
    [dispatch] takes the last one, a notification with an empty queue puts
    its worker last, so the worker freed last gets the next call. *)
Theorem queue_fifo_workers_lifo (n : nat) (ops : list (op JSVal)) :
  live ops ->
  let s := run ops (fresh n) in
  filter (fun p => p ∈ enqueued (trace s)) (assigned (trace s)) ++
    (call_promise <$> queue s) = enqueued (trace s) /\
  (forall args, freeWorkers s = [] ->
     queue (dispatch args s) = queue s ++ [Call (next_promise s) args]) /\
  (forall o w c q, settles o w -> is_Some (onerror s !! w) ->
     queue s = c :: q ->
     queue (state_of (step s o)) = q /\
     assigned (since s (state_of (step s o))) = [call_promise c]) /\
  (forall args r w, freeWorkers s = r ++ [w] ->
     freeWorkers (dispatch args s) = r /\
     since s (dispatch args s) =
       [EvAttach w (next_promise s); EvPost w args]) /\
  (forall o w args, settles o w -> is_Some (onerror s !! w) ->
     queue s = [] ->
     let s1 := state_of (step s o) in
     freeWorkers s1 = freeWorkers s ++ [w] /\
     since s1 (dispatch args s1) =
       [EvAttach w (next_promise s1); EvPost w args]).
Proof.
  intros L s. pose proof (Inv_reachable n ops) as I. fold s in I.
  split; [by apply live_fifo|].
  split; [intros args F; by rewrite dispatch_queued|].
  split; [|split].
  - intros o w c q So [h Hh] Q.
    destruct (notified s o w h I So Hh) as (out & e & _ & He & Hn).
    destruct (outcome_event_silent _ _ _ He) as (Ea & _ & _).
    rewrite Q in Hn. destruct Hn as [_ ->].
    destruct (forallb clonable (call_args c)); cbn [state_of]; fields;
      (split; [done|]); (erewrite since_app; [|done]).
    + change (assigned [EvDetach w; EvAttach w (call_promise c);
                        EvPost w (call_args c); e])
        with (call_promise c :: assigned [e]).
      by rewrite Ea.
    + done.
  - intros args r w F. split; [by rewrite (dispatch_assigned _ _ r w)|].
    by apply (since_dispatch_assigned _ _ r w).
  - intros o w args So [h Hh] Q s1.
    destruct (notified s o w h I So Hh) as (out & e & _ & _ & Hn).
    rewrite Q in Hn.
    assert (freeWorkers s1 = freeWorkers s ++ [w]) as F.
    { subst s1. by rewrite Hn. }
    split; [done|]. by apply (since_dispatch_assigned _ _ (freeWorkers s) w).
Qed.


(** C3. In every state reachable by dispatches, worker notifications (and
    disposals), each run to completion, a non-empty queue means that no
    worker is free. *)
Theorem waiting_implies_no_free_worker (n : nat) (ops : list (op JSVal)) :
  0 < getWaitingEventCount (run ops (fresh n)) ->
  getFreeWorkerCount (run ops (fresh n)) = 0.
Proof.
  intros H. pose proof (Inv_reachable n ops) as I.
  unfold getWaitingEventCount, getFreeWorkerCount in *.
  rewrite (inv_no_wait _ I); [done|].
  intros Q. rewrite Q in H. cbn in H. lia.
Qed.


(** C4. A fresh pool of N workers has N free and none running, and as long
    as [dispose] has not been called the free and the running count add up
    to N; the running count is the number of calls in flight. *)
Theorem free_plus_running_is_size (n : nat) (ops : list (op JSVal)) :
  live ops ->
  let s := run ops (fresh n) in
  getFreeWorkerCount s + getRunningWorkerCount s = Z.of_nat n /\
  getRunningWorkerCount s = Z.of_nat (length (inflight s)) /\
  getFreeWorkerCount (fresh (JSVal := JSVal) n) = Z.of_nat n /\
  getRunningWorkerCount (fresh (JSVal := JSVal) n) = 0 /\
  getWaitingEventCount (fresh (JSVal := JSVal) n) = 0.
Proof.
  intros L s. pose proof (Inv_reachable n ops) as I. fold s in I.
  split; [|split; [by apply running_count|]].
  - unfold getFreeWorkerCount, getRunningWorkerCount.
    subst s. rewrite live_workers by done. rewrite length_seq. lia.
  - unfold getFreeWorkerCount, getRunningWorkerCount, getWaitingEventCount.
    cbn. rewrite length_seq. lia.
Qed.


Lemma lt_one_Num (q : Q) : lt_one (Num q) = true <-> (q < 1)%Q.
Proof.
  cbn. rewrite negb_true_iff, <- not_true_iff_false, Qle_bool_iff.
  split; [apply Qnot_le_lt|apply Qlt_not_le].
Qed.


Lemma lt_one_integer (z : Z) : lt_one (Num (inject_Z z)) = true <-> z <= 0.
Proof. rewrite lt_one_Num. unfold Qlt. cbn. lia. Qed.


(** C8, as the code has it.  Once [dispose] has been called, no worker is
    left, so [dispatch] always takes the queueing branch of [start]: the
    call is appended to the queue, the new promise is not settled, and it
    stays pending whatever is dispatched or notified afterwards, as long as
    [dispose] is not called again. *)
Theorem dispatch_after_dispose_waits (n : nat) (ops : list (op JSVal))
    (args : list JSVal) :
  disposed ops ->
  let s := run ops (fresh n) in
  let p := next_promise s in
  let s' := dispatch args s in
  queue s' = queue s ++ [Call p args] /\
  since s s' = [EvQueued p] /\
  promises s' !! p = None /\
  getFreeWorkerCount s' = 0 /\
  getRunningWorkerCount s' = 0 /\
  getWaitingEventCount s' = getWaitingEventCount s + 1 /\
  (forall ops' : list (op JSVal), live ops' ->
     promises (run ops' s') !! p = None /\
     exists more, queue (run ops' s') = queue s ++ Call p args :: more).
Proof.
  intros D s p s'. pose proof (Inv_reachable n ops) as I. fold s in I.
  pose proof (disposed_Dead n ops D) as Dd. fold s in Dd.
  destruct Dd as [F W M E].
  pose proof (fresh_promise_pending s I) as Hp.
  assert (s' = Pool (queue s ++ [Call p args]) [] (workers s)
                    (onmessage s) (onerror s) (promises s) (S p)
                    (trace s ++ [EvQueued p])) as Hs'
    by (by apply dispatch_queued).
  assert (forall ops' : list (op JSVal), live ops' ->
            promises (run ops' s') !! p = None /\
            exists more, queue (run ops' s') = queue s ++ Call p args :: more)
    as Hlater.
  { intros ops' L'.
    destruct (Dead_live_run ops' s') as (_ & Hpr & more & Hq); [|done|].
    { rewrite Hs'. by split. }
    rewrite Hpr, Hq, Hs'. fields. split; [done|].
    exists more. by rewrite <- app_assoc. }
  split; [by rewrite Hs'|]. split; [by apply since_dispatch_queued|].
  split; [by rewrite Hs'|].
  split; [|split; [|split; [|exact Hlater]]];
    unfold getFreeWorkerCount, getRunningWorkerCount, getWaitingEventCount;
    rewrite Hs'; fields; rewrite ?W, ?length_app; cbn [length]; lia.
Qed.


(** C9. On a pool that [dispose] has just left, a second [dispose] returns
    the very same state (no worker, no free slot, no waiting call, the same
    promises) and adds nothing to the log: it rejects nothing.  More
    generally, in no run of the pool, however many disposals it contains,
    is [reject] or [resolve] called twice for the same promise. *)
Theorem dispose_twice (n : nat) (ops : list (op JSVal)) :
  let s1 := state_of (dispose (run ops (fresh n))) in
  dispose s1 = Done s1 /\
  since s1 (state_of (dispose s1)) = [] /\
  getFreeWorkerCount s1 = 0 /\
  getRunningWorkerCount s1 = 0 /\
  getWaitingEventCount s1 = 0 /\
  (forall ops' : list (op JSVal),
     NoDup (settlements (trace (run ops' (fresh n))))).
Proof.
  intros s1. pose proof (Inv_reachable n ops) as I.
  assert (forall ops' : list (op JSVal),
            NoDup (settlements (trace (run ops' (fresh n))))) as Honce
    by (intros ops'; apply once_reachable).
  subst s1. rewrite (dispose_eq (run ops (fresh n))) by done. cbn [state_of].
  assert (forall m k t, dispose (Pool (JSVal := JSVal) [] [] [] ∅ ∅ m k t) =
                        Done (Pool [] [] [] ∅ ∅ m k t)) as E by done.
  rewrite E. cbn [state_of]. split; [done|]. split; [|done].
  apply since_app. by rewrite app_nil_r.
Qed.




End Properties.

(** ** Further properties of the controller *)

Section Further.

Context {JSVal : Type} {JSVal_clonable : Clonable JSVal}.
Implicit Types (s : pool JSVal) (t : list (event JSVal)) (c : call JSVal).

(** X1. When a busy worker posts its result, its handler first runs
    [onFinish].  If nobody waits, or if the arguments of the oldest waiting
    call can be cloned, the handler returns and [resolve] is called once,
    with the data of the message, for the promise of the call that worker
    was running; nothing is rejected and no other promise changes; the
    worker ends free and without handlers (nobody waited) or runs the oldest
    waiting call.  If those arguments cannot be cloned, [postMessage] raises
    inside [onFinish]: the handler is left before [resolve], nothing is
    settled, the waiting call has left the queue and the worker holds its
    handlers.  The pool has not settled that promise before, and it was
    pending as long as every argument dispatched could be cloned. *)
Theorem message_resolves_its_call (n : nat) (ops : list (op JSVal))
    (w : worker) (data : JSVal) (h : closure) :
  let s := run ops (fresh n) in
  onmessage s !! w = Some h ->
  let p := cl_promise h in
  (queue s = [] ->
     exists s',
       step s (Message w data) = Done s' /\
       promises s' = settle_map p (Fulfilled data) (promises s) /\
       since s s' = [EvDetach w; EvResolve p data] /\
       queue s' = [] /\ freeWorkers s' = freeWorkers s ++ [w] /\
       onmessage s' !! w = None /\ onerror s' !! w = None) /\
  (forall c q, queue s = c :: q -> forallb clonable (call_args c) = true ->
     exists s',
       step s (Message w data) = Done s' /\
       promises s' = settle_map p (Fulfilled data) (promises s) /\
       since s s' = [EvDetach w; EvAttach w (call_promise c);
                     EvPost w (call_args c); EvResolve p data] /\
       queue s' = q /\ freeWorkers s' = freeWorkers s /\
       onmessage s' !! w = Some (Closure w (call_promise c)) /\
       onerror s' !! w = Some (Closure w (call_promise c))) /\
  (forall c q, queue s = c :: q -> forallb clonable (call_args c) = false ->
     exists s',
       step s (Message w data) = Raised s' /\
       promises s' = promises s /\
       since s s' = [EvDetach w; EvAttach w (call_promise c);
                     EvPost w (call_args c)] /\
       queue s' = q /\ freeWorkers s' = freeWorkers s /\
       onmessage s' !! w = Some (Closure w (call_promise c)) /\
       onerror s' !! w = Some (Closure w (call_promise c))) /\
  (p ∉ settlements (trace s)) /\
  (clonable_ops ops ->
     promises s !! p = None /\
     exists s', step s (Message w data) = Done s' /\
                promises s' = <[p := Fulfilled data]> (promises s)).
Proof.
  intros s Hm p. pose proof (Inv_reachable n ops) as I. fold s in I.
  assert (onerror s !! w = Some h) as Hh by (by rewrite <- (inv_handlers _ I)).
  destruct (notified s (Message w data) w h I eq_refl Hh)
    as (out & e & [= <-] & [= <-] & Hn).
  split; [|split; [|split; [|split]]].
  - intros Q. rewrite Q in Hn. eexists. split; [exact Hn|]. fields.
    split; [done|]. split; [by apply since_app|].
    by rewrite !lookup_delete_eq.
  - intros c q Q C. rewrite Q, C in Hn. destruct Hn as [F Hn].
    eexists. split; [exact Hn|]. fields.
    split; [done|]. split; [by apply since_app|].
    by rewrite !lookup_insert_eq, F.
  - intros c q Q C. rewrite Q, C in Hn. destruct Hn as [F Hn].
    eexists. split; [exact Hn|]. fields.
    split; [done|]. split; [by apply since_app|].
    by rewrite !lookup_insert_eq, F.
  - by destruct (inv_flight _ I _ _ Hh) as (_ & _ & ?).
  - intros Hc. pose proof (Sound_reachable n ops Hc) as So. fold s in So.
    pose proof (sound_flight _ So _ _ Hh) as Hp. split; [done|].
    destruct (queue s) as [|c q] eqn:Q.
    + eexists. split; [exact Hn|]. fields. by apply settle_map_pending.
    + rewrite (sound_queue _ So c) in Hn by (rewrite Q; apply list_elem_of_here).
      destruct Hn as [F Hn]. eexists. split; [exact Hn|]. fields.
      by apply settle_map_pending.
Qed.

(** X2. A message or an error from a worker that is free, or that does not
    belong to the pool, finds no handler and changes nothing: handlers are
    installed by [start] only and removed again by [onFinish]. *)
Theorem idle_worker_notification_ignored (n : nat) (ops : list (op JSVal))
    (w : worker) :
  let s := run ops (fresh n) in
  w ∈ freeWorkers s \/ w ∉ workers s ->
  onmessage s !! w = None /\ onerror s !! w = None /\
  forall (data err : JSVal),
    step s (Message w data) = Done s /\ step s (Failure w err) = Done s.
Proof.
  intros s Hw. pose proof (Inv_reachable n ops) as I. fold s in I.
  assert (onerror s !! w = None) as He.
  { destruct (onerror s !! w) as [h|] eqn:Hh; [|done].
    destruct (inv_onerror _ I w h Hh) as (? & ? & _). by destruct Hw. }
  assert (onmessage s !! w = None) as Hm by (by rewrite (inv_handlers _ I)).
  split; [done|]. split; [done|]. intros data err. cbn [step].
  by rewrite Hm, He.
Qed.

(** X4. The promises handed out by [dispatch] are those below
    [next_promise]: a promise that is settled, or whose call waits, or
    whose handlers sit on a worker, has been handed out.  A settled promise
    has no call in the queue, and a call in the queue is not with a worker.
    As long as every argument dispatched could be cloned, no call is lost
    and the three cases exclude one another: every promise handed out is
    settled, or waits, or is with a worker, and a settled promise is not
    with a worker. *)
Theorem every_call_accounted (n : nat) (ops : list (op JSVal)) (p : promise) :
  let s := run ops (fresh n) in
  (is_Some (promises s !! p) \/ waiting s p \/ flying s p ->
   (p < next_promise s)%nat) /\
  (is_Some (promises s !! p) -> ~ waiting s p) /\
  (waiting s p -> ~ flying s p) /\
  (clonable_ops ops ->
   ((p < next_promise s)%nat ->
    is_Some (promises s !! p) \/ waiting s p \/ flying s p) /\
   (is_Some (promises s !! p) -> ~ flying s p)).
Proof.
  intros s. pose proof (Inv_reachable n ops) as I. fold s in I.
  unfold waiting, flying. split; [|split; [|split]].
  - intros [[x Hx]|[Hq|(w & h & Hh & <-)]].
    + by apply (inv_settled _ I p x).
    + apply list_elem_of_fmap in Hq as (c & -> & Hc).
      by destruct (inv_queue_pending _ I c Hc).
    + by destruct (inv_flight _ I w h Hh).
  - intros [x Hx] (c & -> & Hc)%list_elem_of_fmap.
    destruct (inv_queue_pending _ I c Hc). congruence.
  - intros Hq (w & h & Hh & <-).
    by destruct (inv_flight _ I w h Hh) as (_ & ? & _).
  - intros Hc. pose proof (Sound_reachable n ops Hc) as So. fold s in So.
    split; [apply (sound_accounted _ So)|].
    intros [x Hx] (w & h & Hh & <-).
    rewrite (sound_flight _ So _ _ Hh) in Hx. done.
Qed.

(** X5. Before [dispose], calls are started in the order in which they were
    dispatched: the argument lists posted to workers so far, followed by
    those of the calls still waiting, are the argument lists given to
    [dispatch], in order; and so for the promises, which [dispatch] hands
    out in sequence. *)
Theorem calls_start_in_dispatch_order (n : nat) (ops : list (op JSVal)) :
  live ops ->
  let s := run ops (fresh n) in
  posted (trace s) ++ (call_args <$> queue s) = dispatched ops /\
  assigned (trace s) ++ (call_promise <$> queue s) = seq 0 (next_promise s).
Proof.
  revert ops.
  apply (reachable_ind n (fun ops s => live ops ->
    posted (trace s) ++ (call_args <$> queue s) = dispatched ops /\
    assigned (trace s) ++ (call_promise <$> queue s) =
      seq 0 (next_promise s))).
  { intros _. by split. }
  intros ops s o r0 _ I IH E [L D]%live_snoc.
  destruct (IH L) as [A B]. rewrite dispatched_app.
  destruct E as [args F|args r w F Q Hw C|args r w F Q Hw C
                |o w h out e So Hh Ho He Q|o w h out e c q So Hh Ho He Q F C
                |o w h c q So Hh Q F C|o w So Hh|]; cbn [state_of]; fields.
  - rewrite posted_app, assigned_app, !fmap_app, seq_S.
    change (posted [EvQueued (next_promise s)]) with (@nil (list JSVal)).
    change (assigned [EvQueued (JSVal := JSVal) (next_promise s)])
      with (@nil promise).
    rewrite !app_nil_r, !app_assoc, A, B. done.
  - rewrite Q in A, B. cbn [fmap list_fmap] in *.
    rewrite app_nil_r in A, B. rewrite !app_nil_r.
    rewrite posted_app, assigned_app, seq_S, A, B. done.
  - rewrite Q in A, B. cbn [fmap list_fmap] in *.
    rewrite app_nil_r in A, B. rewrite !app_nil_r.
    rewrite posted_app, assigned_app, seq_S, A, B. done.
  - destruct (outcome_event_quiet _ _ _ He) as (Ea & Ep & _ & _ & _ & _ & Ed & _).
    rewrite Q in A, B. rewrite posted_app, assigned_app, Ed.
    change (posted [EvDetach w; e]) with (posted [e]).
    change (assigned [EvDetach w; e]) with (assigned [e]).
    rewrite Ea, Ep, !app_nil_r. rewrite app_nil_r in A, B. done.
  - destruct (outcome_event_quiet _ _ _ He) as (Ea & Ep & _ & _ & _ & _ & Ed & _).
    rewrite Q in A, B. rewrite posted_app, assigned_app, Ed.
    change (posted [EvDetach w; EvAttach w (call_promise c);
                    EvPost w (call_args c); e])
      with (call_args c :: posted [e]).
    change (assigned [EvDetach w; EvAttach w (call_promise c);
                      EvPost w (call_args c); e])
      with (call_promise c :: assigned [e]).
    rewrite Ea, Ep, !app_nil_r, <- !app_assoc. done.
  - destruct (settles_not_dispatch _ _ So) as [-> _].
    rewrite Q in A, B. rewrite posted_app, assigned_app.
    change (posted [EvDetach w; EvAttach w (call_promise c);
                    EvPost w (call_args c)])
      with [call_args c].
    change (assigned [EvDetach w; EvAttach w (call_promise c);
                      EvPost w (call_args c)])
      with [call_promise c].
    rewrite !app_nil_r, <- !app_assoc. done.
  - destruct (settles_not_dispatch _ _ So) as [-> _].
    by rewrite app_nil_r.
  - done.
Qed.

(** X6. A worker runs one call at a time: in the log of any run, the
    messages posted to a worker exceed the removals of its handlers by one
    while it has a handler installed, and equal them otherwise. *)
Theorem one_call_per_worker (n : nat) (ops : list (op JSVal)) (w : worker) :
  let s := run ops (fresh n) in
  occurrences w (posts (trace s)) =
  (occurrences w (detaches (trace s)) +
   match onerror s !! w with Some _ => 1 | None => 0 end)%nat.
Proof.
  cbn zeta. revert w ops.
  intros w0.
  apply (reachable_ind n (fun _ s =>
    occurrences w0 (posts (trace s)) =
    (occurrences w0 (detaches (trace s)) +
     match onerror s !! w0 with Some _ => 1 | None => 0 end)%nat)).
  { done. }
  intros ops s o r0 _ I IH E.
  destruct E as [args F|args r w F Q Hw C|args r w F Q Hw C
                |o w h out e So Hh Ho He Q|o w h out e c q So Hh Ho He Q F C
                |o w h c q So Hh Q F C|o w So Hh|]; cbn [state_of]; fields.
  - rewrite posts_app, detaches_app.
    change (posts [EvQueued (JSVal := JSVal) (next_promise s)])
      with (@nil worker).
    change (detaches [EvQueued (JSVal := JSVal) (next_promise s)])
      with (@nil worker).
    by rewrite !app_nil_r.
  - rewrite posts_app, detaches_app.
    change (posts [EvAttach w (next_promise s); EvPost w args]) with [w].
    change (detaches [EvAttach w (next_promise s); EvPost w args])
      with (@nil worker).
    rewrite app_nil_r, occurrences_app, IH, lookup_insert.
    unfold occurrences at 2. rewrite filter_cons, filter_nil.
    destruct (decide (w = w0)) as [->|Hne]; [rewrite Hw|]; cbn [length]; lia.
  - rewrite posts_app, detaches_app.
    change (posts [EvAttach w (next_promise s); EvPost w args]) with [w].
    change (detaches [EvAttach w (next_promise s); EvPost w args])
      with (@nil worker).
    rewrite app_nil_r, occurrences_app, IH, lookup_insert.
    unfold occurrences at 2. rewrite filter_cons, filter_nil.
    destruct (decide (w = w0)) as [->|Hne]; [rewrite Hw|]; cbn [length]; lia.
  - destruct (outcome_event_quiet _ _ _ He) as (_ & _ & Eo & Ed & _).
    rewrite posts_app, detaches_app.
    change (posts [EvDetach w; e]) with (posts [e]).
    change (detaches [EvDetach w; e]) with (w :: detaches [e]).
    rewrite Eo, Ed, app_nil_r, occurrences_app, IH, lookup_delete.
    unfold occurrences at 3. rewrite filter_cons, filter_nil.
    destruct (decide (w = w0)) as [->|Hne]; [rewrite Hh|]; cbn [length]; lia.
  - destruct (outcome_event_quiet _ _ _ He) as (_ & _ & Eo & Ed & _).
    rewrite posts_app, detaches_app.
    change (posts [EvDetach w; EvAttach w (call_promise c);
                   EvPost w (call_args c); e]) with (w :: posts [e]).
    change (detaches [EvDetach w; EvAttach w (call_promise c);
                      EvPost w (call_args c); e]) with (w :: detaches [e]).
    rewrite Eo, Ed, !occurrences_app, IH, lookup_insert, lookup_delete.
    unfold occurrences at 2 4. rewrite !filter_cons, !filter_nil.
    destruct (decide (w = w0)) as [->|Hne]; [rewrite Hh|]; cbn [length]; lia.
  - rewrite posts_app, detaches_app.
    change (posts [EvDetach w; EvAttach w (call_promise c);
                   EvPost w (call_args c)]) with [w].
    change (detaches [EvDetach w; EvAttach w (call_promise c);
                      EvPost w (call_args c)]) with [w].
    rewrite !occurrences_app, IH, lookup_insert, lookup_delete.
    unfold occurrences at 2 4. rewrite !filter_cons, !filter_nil.
    destruct (decide (w = w0)) as [->|Hne]; [rewrite Hh|]; cbn [length]; lia.
  - exact IH.
  - destruct (Inv_running s I) as [Hr _].
    destruct (dispose_log_quiet s) as (_ & _ & Eo & _).
    rewrite posts_app, detaches_app, Eo, app_nil_r, detaches_dispose_log, Hr.
    rewrite occurrences_app, lookup_empty, IH.
    rewrite (occurrences_NoDup w0 (busy s))
      by (apply NoDup_filter, (inv_workers _ I)).
    destruct (onerror s !! w0) as [h|] eqn:Hh.
    + rewrite decide_True; [lia|]. apply elem_of_busy.
      destruct (inv_onerror _ I w0 h Hh) as (? & ? & _). done.
    + rewrite decide_False; [lia|]. intros [Hf Hw]%elem_of_busy.
      destruct (inv_busy _ I w0 Hw Hf) as [h Hh']. congruence.
Qed.

(** X7. Every call of [dispatch] hands out one promise, so that the number
    of promises handed out is the number of calls of [dispatch].  As long
    as every argument dispatched could be cloned, each of them is counted
    once: that number is the waiting count plus the running count plus the
    number of settlements logged. *)
Theorem dispatched_calls_are_conserved (n : nat) (ops : list (op JSVal)) :
  clonable_ops ops ->
  let s := run ops (fresh n) in
  next_promise s = length (dispatched ops) /\
  Z.of_nat (next_promise s) =
    getWaitingEventCount s + getRunningWorkerCount s +
    Z.of_nat (length (settlements (trace s))).
Proof.
  cbn zeta. revert ops.
  apply (reachable_ind n (fun ops s => clonable_ops ops ->
    next_promise s = length (dispatched ops) /\
    Z.of_nat (next_promise s) =
      getWaitingEventCount s + getRunningWorkerCount s +
      Z.of_nat (length (settlements (trace s))))).
  { intros _. split; [done|].
    unfold getWaitingEventCount, getRunningWorkerCount. cbn. lia. }
  intros ops s o r0 Hs I IH E [Hc Ho]%clonable_ops_snoc.
  destruct (IH Hc) as [IH1 IH2].
  pose proof (Sound_reachable n ops Hc) as So. rewrite <- Hs in So.
  rewrite dispatched_app, length_app.
  unfold getWaitingEventCount, getRunningWorkerCount in *.
  destruct E as [args F|args r w F Q Hw C|args r w F Q Hw C
                |o w h out e So' Hh Ho' He Q|o w h out e c q So' Hh Ho' He Q F C
                |o w h c q So' Hh Q F C|o w So' Hh|]; cbn [state_of]; fields.
  - rewrite settlements_app.
    change (settlements [EvQueued (JSVal := JSVal) (next_promise s)])
      with (@nil promise).
    change (dispatched [Dispatch args]) with [args].
    rewrite F in IH2. rewrite app_nil_r, !length_app.
    cbn [length] in *. split; lia.
  - rewrite settlements_app.
    change (settlements [EvAttach w (next_promise s); EvPost w args])
      with (@nil promise).
    change (dispatched [Dispatch args]) with [args].
    rewrite F, Q, length_app in IH2. rewrite app_nil_r.
    cbn [length] in *. split; lia.
  - apply (proj1 (clonable_dispatch args)) in Ho. congruence.
  - destruct (outcome_event_quiet _ _ _ He) as (_ & _ & _ & _ & _ & Es & Ed & _).
    rewrite settlements_app, Ed.
    change (settlements [EvDetach w; e]) with (settlements [e]).
    rewrite Es, !length_app. rewrite Q in IH2. cbn [length] in *. split; lia.
  - destruct (outcome_event_quiet _ _ _ He) as (_ & _ & _ & _ & _ & Es & Ed & _).
    rewrite settlements_app, Ed.
    change (settlements [EvDetach w; EvAttach w (call_promise c);
                         EvPost w (call_args c); e])
      with (settlements [e]).
    rewrite Es, !length_app. rewrite Q, F in IH2.
    cbn [length] in *. split; lia.
  - rewrite (sound_queue _ So c) in C by (rewrite Q; apply list_elem_of_here).
    done.
  - destruct (settles_not_dispatch _ _ So') as [-> _].
    cbn [length]. split; lia.
  - rewrite settlements_app, settlements_dispose_log, !length_app, length_fmap.
    change (dispatched [Dispose]) with (@nil (list JSVal)).
    pose proof (running_count s I) as Hr.
    unfold getRunningWorkerCount in Hr. cbn [length]. split; lia.
Qed.

(** X8. Workers are terminated by [dispose] only, and the first [dispose]
    terminates every worker of the pool exactly once: first the free ones,
    in the order of [freeWorkers], then the busy ones, in set order. *)
Theorem dispose_terminates_every_worker (n : nat) (ops : list (op JSVal)) :
  live ops ->
  let s := run ops (fresh n) in
  let s' := state_of (dispose s) in
  terminations (trace s) = [] /\
  terminations (since s s') = freeWorkers s ++ busy s /\
  terminations (since s s') ≡ₚ seq 0 n /\
  NoDup (terminations (since s s')).
Proof.
  intros L s s'. pose proof (Inv_reachable n ops) as I. fold s in I.
  assert (terminations (trace s) = []) as Hnone.
  { subst s s'. clear I. revert ops L.
    apply (reachable_ind n (fun ops s => live ops ->
             terminations (trace s) = [])); [done|].
    intros ops s o r0 _ I IH E [L D]%live_snoc. specialize (IH L).
    destruct E as [args F|args r w F Q Hw C|args r w F Q Hw C
                  |o w h out e So Hh Ho He Q
                  |o w h out e c q So Hh Ho He Q F C
                  |o w h c q So Hh Q F C|o w So Hh|]; cbn [state_of]; fields;
      try done; rewrite terminations_app, IH; try done.
    - by destruct (outcome_event_quiet _ _ _ He) as (_ & _ & _ & _ & Et & _).
    - by destruct (outcome_event_quiet _ _ _ He) as (_ & _ & _ & _ & Et & _). }
  assert (terminations (since s s') = freeWorkers s ++ busy s) as Ht.
  { subst s'. rewrite dispose_eq by done. cbn [state_of].
    rewrite (since_app _ _ (dispose_log s)) by done.
    by apply terminations_dispose_log. }
  split; [done|]. split; [done|]. rewrite Ht.
  pose proof (free_busy_perm s I) as Hperm.
  split.
  - rewrite Hperm. subst s. by rewrite live_workers.
  - rewrite Hperm. apply (inv_workers _ I).
Qed.

(** X9. Disposal is final: once [dispose] has been called, whatever is
    dispatched, notified or disposed afterwards, no worker is free or
    running, nothing is posted, no call is assigned, no promise is
    resolved, no worker is terminated again, and the only settlements are
    rejections with the disposed error. *)
Theorem disposal_is_final (n : nat) (ops ops' : list (op JSVal)) :
  disposed ops ->
  let s := run ops (fresh n) in
  let s' := run ops' s in
  getFreeWorkerCount s' = 0 /\
  getRunningWorkerCount s' = 0 /\
  posts (since s s') = [] /\
  assigned (since s s') = [] /\
  resolutions (since s s') = [] /\
  terminations (since s s') = [] /\
  Forall (fun pr => pr.2 = ThreadpoolDisposed) (rejections (since s s')).
Proof.
  intros D s s'. pose proof (disposed_Dead n ops D) as Dd. fold s in Dd.
  assert (Dead s' /\ exists d,
            trace s' = trace s ++ d /\
            posts d = [] /\ assigned d = [] /\ resolutions d = [] /\
            terminations d = [] /\
            Forall (fun pr => pr.2 = ThreadpoolDisposed) (rejections d))
    as ([F W M E] & d & Ht & H1 & H2 & H3 & H4 & H5).
  { subst s'. induction ops' as [|o ops' IH] using rev_ind.
    - split; [done|]. exists []. rewrite app_nil_r. by repeat split.
    - destruct IH as (Dd' & d & Ht & H1 & H2 & H3 & H4 & H5).
      rewrite run_snoc.
      assert (Inv (run ops' s)) as I by (apply Inv_run, Inv_reachable).
      split; [by apply Dead_step|].
      pose proof (step_effect _ o I) as Eff.
      destruct Dd' as [F W M E].
      remember (step (run ops' s) o) as r2 eqn:Hr2. clear Hr2.
      destruct Eff as [args F'|args r w F' Q Hw C|args r w F' Q Hw C
                      |o w h out e So Hh Ho He Q
                      |o w h out e c q So Hh Ho He Q F' C
                      |o w h c q So Hh Q F' C|o w So Hh|];
        cbn [state_of]; fields.
      + exists (d ++ [EvQueued (next_promise (run ops' s))]).
        rewrite Ht, <- app_assoc. split; [done|].
        rewrite posts_app, assigned_app, resolutions_app, terminations_app,
          rejections_app, H1, H2, H3, H4, Forall_app.
        by repeat split.
      + rewrite F in F'. by destruct r.
      + rewrite F in F'. by destruct r.
      + by rewrite E, lookup_empty in Hh.
      + by rewrite E, lookup_empty in Hh.
      + by rewrite E, lookup_empty in Hh.
      + by exists d.
      + exists (d ++ dispose_log (run ops' s)).
        rewrite Ht, <- app_assoc. split; [done|].
        destruct (dispose_log_quiet (run ops' s)) as (Ea & _ & Eo & Er).
        rewrite posts_app, assigned_app, resolutions_app, terminations_app,
          rejections_app, H1, H2, H3, H4, Eo, Ea, Er, Forall_app.
        rewrite terminations_dispose_log, rejections_dispose_log by done.
        unfold busy. rewrite F, W. repeat split; try done.
        rewrite Forall_fmap. by apply Forall_true. }
  unfold getFreeWorkerCount, getRunningWorkerCount.
  rewrite F, W, (since_app _ _ d) by done. by repeat split.
Qed.

Lemma burst_state (n : nat) (l : list (list JSVal)) :
  let s := run (Dispatch <$> l) (fresh n) in
  freeWorkers s = seq 0 (n - length l) /\
  posted (trace s) = take n l /\
  call_args <$> queue s = drop n l /\
  posts (trace s) = reverse (seq (n - length l) (length l `min` n)).
Proof.
  cbn zeta. induction l as [|a l IH] using rev_ind.
  - cbn. rewrite Nat.sub_0_r, take_nil, drop_nil. done.
  - destruct IH as (F & P & Q & W).
    rewrite fmap_app. change (Dispatch <$> [a]) with [Dispatch a].
    rewrite run_snoc. cbn [step state_of].
    set (s := run (Dispatch <$> l) (fresh n)) in *.
    rewrite length_app. cbn [length].
    destruct (n - length l)%nat as [|m] eqn:Hm.
    + cbn [seq] in F. rewrite dispatch_queued by done. fields.
      replace (n - (length l + 1))%nat with 0%nat by lia.
      rewrite posted_app, posts_app, fmap_app, P, Q, W.
      change (posted [EvQueued (next_promise s)]) with (@nil (list JSVal)).
      change (posts [EvQueued (JSVal := JSVal) (next_promise s)])
        with (@nil worker).
      rewrite !app_nil_r, take_app_le, drop_app_le by lia.
      replace ((length l + 1) `min` n)%nat with (length l `min` n)%nat by lia.
      done.
    + rewrite seq_S in F. cbn [Nat.add] in F.
      rewrite (dispatch_assigned _ _ (seq 0 m) m) by done. fields.
      replace (n - (length l + 1))%nat with m by lia.
      rewrite posted_app, posts_app, P, Q, W.
      change (posted [EvAttach m (next_promise s); EvPost m a]) with [a].
      change (posts [EvAttach m (next_promise s); EvPost m a]) with [m].
      rewrite !take_ge, !drop_ge by (rewrite ?length_app; cbn [length]; lia).
      replace (length l `min` n)%nat with (length l) by lia.
      replace ((length l + 1) `min` n)%nat with (S (length l)) by lia.
      cbn [seq]. by rewrite reverse_cons.
Qed.

(** X10. A burst of k calls on a fresh pool of n workers, with no
    notification in between: the first n calls are posted, in order, to
    workers n-1, n-2, ... (the free list is used from its end), the others
    wait in order, and the gauges read free = max(0, n-k),
    running = min(k, n), waiting = max(0, k-n). *)
Theorem burst_fills_workers_then_queue (n : nat) (l : list (list JSVal)) :
  let s := run (Dispatch <$> l) (fresh n) in
  let k := length l in
  posted (trace s) = take n l /\
  posts (trace s) = reverse (seq (n - k) (k `min` n)) /\
  call_args <$> queue s = drop n l /\
  freeWorkers s = seq 0 (n - k) /\
  getFreeWorkerCount s = Z.max 0 (Z.of_nat n - Z.of_nat k) /\
  getRunningWorkerCount s = Z.min (Z.of_nat k) (Z.of_nat n) /\
  getWaitingEventCount s = Z.max 0 (Z.of_nat k - Z.of_nat n).
Proof.
  intros s k. destruct (burst_state n l) as (F & P & Q & W).
  fold s in F, P, Q, W. fold k in F, W.
  split; [done|]. split; [done|]. split; [done|]. split; [done|].
  unfold getFreeWorkerCount, getRunningWorkerCount, getWaitingEventCount.
  assert (length (queue s) = (k - n)%nat) as ->.
  { rewrite <- (length_fmap call_args), Q, length_drop. done. }
  subst s. rewrite live_workers by apply live_dispatches.
  rewrite F, !length_seq. lia.
Qed.

(** X11. On a pool with a free worker, [dispatch] of arguments that can
    be cloned, followed by the message of the worker it chose, resolves the
    new promise with the data of that message and leaves the pool as it was
    before: same queue, same free list in the same order, same handlers. *)
Theorem dispatch_then_message_restores_pool (n : nat) (ops : list (op JSVal))
    (args : list JSVal) (data : JSVal) (r : list worker) (w : worker) :
  let s := run ops (fresh n) in
  freeWorkers s = r ++ [w] ->
  forallb clonable args = true ->
  let p := next_promise s in
  exists s2,
    step (dispatch args s) (Message w data) = Done s2 /\
    since s s2 =
      [EvAttach w p; EvPost w args; EvDetach w; EvResolve p data] /\
    promises s !! p = None /\
    promises s2 = <[p := Fulfilled data]> (promises s) /\
    queue s2 = queue s /\
    freeWorkers s2 = freeWorkers s /\
    workers s2 = workers s /\
    onmessage s2 = onmessage s /\
    onerror s2 = onerror s.
Proof.
  intros s F C p. pose proof (Inv_reachable n ops) as I. fold s in I.
  pose proof (fresh_promise_pending s I) as Hp. fold p in Hp.
  assert (queue s = []) as Q.
  { destruct (queue s) eqn:Q; [done|].
    rewrite (inv_no_wait _ I) in F; [|by rewrite Q]. by destruct r. }
  assert (onerror s !! w = None) as Hw.
  { destruct (onerror s !! w) as [h|] eqn:Hh; [|done].
    destruct (inv_onerror _ I w h Hh) as (_ & Hn & _).
    exfalso. apply Hn. rewrite F, elem_of_app, list_elem_of_singleton.
    by right. }
  assert (onmessage s !! w = None) as Hm by (by rewrite (inv_handlers _ I)).
  rewrite (dispatch_assigned _ _ r w), C by done. fold p.
  cbn [step]. fields. rewrite lookup_insert_eq.
  unfold message_handler, resolve. fields.
  rewrite handler_idle by done. fields.
  eexists. split; [done|]. fields.
  rewrite settle_map_pending by done.
  rewrite !delete_insert_id by done.
  split; [apply since_app; by rewrite <- !app_assoc|].
  by rewrite F, Q.
Qed.

(** X12. Without a size argument the pool gets one worker less than the
    host reports cores: one core or none makes the constructor raise its
    size error, and from two cores up to [2^32] it creates
    [hardwareConcurrency - 1] workers. *)
Theorem default_size_is_cores_minus_one (hc : Z) (fn : JSVal) :
  constructor hc fn None =
    if hc <=? 1 then ([], inl SizeRangeError)
    else if hc <=? 2 ^ 32
         then (seq 0 (Z.to_nat (hc - 1)), inr (fresh (Z.to_nat (hc - 1))))
         else ([], inl ArrayLengthRangeError).
Proof.
  unfold constructor. cbn [default from_option id].
  pose proof (lt_one_integer (hc - 1)) as Hlt.
  destruct (Z.leb_spec hc 1) as [H1|H1].
  - rewrite (proj2 Hlt); [done|lia].
  - destruct (lt_one (Num (inject_Z (hc - 1)))); [destruct Hlt; lia|].
    cbn [to_length]. rewrite Qfloor_Z.
    destruct (Z.leb_spec hc (2 ^ 32)) as [H2|H2].
    + rewrite Z.max_l, Z.min_l by lia.
      destruct (Z.ltb_spec (2 ^ 32 - 1) (hc - 1)); [lia|done].
    + destruct (Z.ltb_spec (2 ^ 32 - 1)
                  (Z.min (Z.max (hc - 1) 0) (2 ^ 53 - 1))); [done|lia].
Qed.

(** X13. When the constructor returns a pool, the workers it created are
    exactly the free workers of that pool, [ToLength size] of them, and the
    size was either [NaN], which gives a pool without any worker, or a
    finite number of at least 1, which gives [floor size] workers, at least
    one and at most [2^32 - 1]; for an integer that is [size] workers. *)
Theorem constructed_pool_size (hc : Z) (fn : JSVal) (size : jsnum)
    (created : list worker) (s0 : pool JSVal) :
  constructor hc fn (Some size) = (created, inr s0) ->
  s0 = fresh (length created) /\
  freeWorkers s0 = created /\
  workers s0 = created /\
  Z.of_nat (length created) = to_length size /\
  (size = NaN /\ created = [] \/
   exists q, size = Num q /\ (1 <= q)%Q /\
             Z.of_nat (length created) = Qfloor q /\
             1 <= Qfloor q <= 2 ^ 32 - 1) /\
  (forall z, size = Num (inject_Z z) -> Z.of_nat (length created) = z).
Proof.
  unfold constructor. cbn [default from_option id].
  destruct (lt_one size) eqn:Hlt; [done|].
  destruct (Z.ltb_spec (2 ^ 32 - 1) (to_length size)) as [Hbig|Hlen]; [done|].
  intros [= <- <-]. rewrite length_seq.
  assert (0 <= to_length size) as Hpos by (destruct size; cbn; lia).
  split; [done|]. split; [done|]. split; [done|].
  split; [lia|].
  assert (forall q, size = Num q ->
            (1 <= q)%Q /\ to_length size = Qfloor q /\ 1 <= Qfloor q) as Hq.
  { intros q ->. cbn in Hlt. apply negb_false_iff, Qle_bool_iff in Hlt.
    pose proof (Qfloor_resp_le _ _ Hlt) as Hfl.
    change (Qfloor 1) with 1 in Hfl. split; [done|].
    cbn [to_length] in *. split; lia. }
  split.
  - destruct size as [q| | |]; [|by left|done|done].
    right. exists q. destruct (Hq q eq_refl) as (? & Hfl & ?).
    rewrite Z2Nat.id by done. split; [done|]. split; [done|]. lia.
  - intros z ->. destruct (Hq _ eq_refl) as (_ & Hfl & _).
    rewrite Qfloor_Z in Hfl. rewrite Z2Nat.id by done. done.
Qed.

(** X14. In every state the pool can reach, the free and the running count
    are between 0 and N, and they add up to N as long as [dispose] has not
    been called and to 0 from then on. *)
Theorem free_plus_running_after_any_run (n : nat) (ops : list (op JSVal)) :
  let s := run ops (fresh n) in
  getFreeWorkerCount s + getRunningWorkerCount s =
    (if existsb is_dispose ops then 0 else Z.of_nat n) /\
  0 <= getFreeWorkerCount s <= Z.of_nat n /\
  0 <= getRunningWorkerCount s <= Z.of_nat n.
Proof.
  intros s. pose proof (Inv_reachable n ops) as I. fold s in I.
  pose proof (running_count s I) as Hr.
  destruct (existsb is_dispose ops) eqn:D.
  - destruct (disposed_Dead n ops D) as [F W _ _]. fold s in F, W.
    unfold getFreeWorkerCount, getRunningWorkerCount in *.
    rewrite F, W. cbn. lia.
  - pose proof (live_workers n ops (live_or_disposed ops D)) as W.
    fold s in W. unfold getFreeWorkerCount, getRunningWorkerCount in *.
    rewrite W, length_seq in *. lia.
Qed.

(** X15. Each worker is in one of two conditions.  Either it has no
    handler at all, or it has both handlers, which belong to one and the
    same call: its promise has been handed out, its call is not in the
    queue, the pool has not settled it, and it is pending as long as every
    argument dispatched could be cloned.  A worker with handlers belongs to
    the pool and is not in the free list, and a worker of the pool that is
    not in the free list has handlers.  The free list holds workers of the
    pool only, none of them twice. *)
Theorem workers_are_free_or_listening (n : nat) (ops : list (op JSVal))
    (w : worker) :
  let s := run ops (fresh n) in
  onmessage s !! w = onerror s !! w /\
  (forall h, onerror s !! w = Some h ->
     cl_worker h = w /\ w ∈ workers s /\ (w ∉ freeWorkers s) /\
     (cl_promise h < next_promise s)%nat /\
     ~ waiting s (cl_promise h) /\
     (cl_promise h ∉ settlements (trace s)) /\
     (clonable_ops ops -> promises s !! cl_promise h = None)) /\
  (w ∈ workers s -> w ∉ freeWorkers s -> is_Some (onerror s !! w)) /\
  (w ∈ freeWorkers s -> w ∈ workers s) /\
  NoDup (freeWorkers s) /\
  NoDup (workers s).
Proof.
  intros s. pose proof (Inv_reachable n ops) as I. fold s in I.
  split; [by rewrite (inv_handlers _ I)|]. split.
  - intros h Hh. destruct (inv_onerror _ I w h Hh) as (? & ? & ?).
    destruct (inv_flight _ I w h Hh) as (? & ? & ?).
    repeat (split; [done|]). intros Hc.
    pose proof (Sound_reachable n ops Hc) as So. fold s in So.
    by apply (sound_flight _ So w).
  - split; [apply (inv_busy _ I)|]. split; [apply (inv_free_sub _ I)|].
    split; [apply (inv_free _ I)|apply (inv_workers _ I)].
Qed.

(** X16. In any state the pool can reach, [dispose] returns; it calls
    [reject] with the disposed error exactly once for each waiting call and
    then for each worker that holds handlers, all these promises distinct
    and none of them settled by the pool before; their number is the
    waiting count plus the running count.  Each of them that was pending
    ends rejected with the disposed error, and as long as every argument
    dispatched could be cloned all of them were pending.  No other promise
    changes, nothing is resolved, and afterwards the three gauges read 0. *)
Theorem dispose_rejects_all_outstanding (n : nat) (ops : list (op JSVal)) :
  let s := run ops (fresh n) in
  let outstanding := (call_promise <$> queue s) ++ inflight s in
  exists s',
    dispose s = Done s' /\
    rejections (since s s') =
      (fun p => (p, ThreadpoolDisposed)) <$> outstanding /\
    resolutions (since s s') = [] /\
    NoDup outstanding /\
    Z.of_nat (length outstanding) =
      getWaitingEventCount s + getRunningWorkerCount s /\
    (forall p : promise, p ∈ outstanding ->
       (p ∉ settlements (trace s)) /\
       (promises s !! p = None ->
        promises s' !! p = Some (Rejected ThreadpoolDisposed)) /\
       (clonable_ops ops -> promises s !! p = None)) /\
    (forall (p : promise) x, promises s !! p = Some x ->
       promises s' !! p = Some x) /\
    (forall p : promise, p ∉ outstanding ->
       promises s' !! p = promises s !! p) /\
    getFreeWorkerCount s' = 0 /\
    getRunningWorkerCount s' = 0 /\
    getWaitingEventCount s' = 0.
Proof.
  intros s outstanding. pose proof (Inv_reachable n ops) as I. fold s in I.
  eexists. split; [by apply dispose_eq|].
  rewrite (since_app _ _ (dispose_log s)) by done.
  split; [apply rejections_dispose_log|].
  split; [apply dispose_log_quiet|].
  split; [by apply outstanding_NoDup|].
  split.
  { unfold outstanding. rewrite length_app, length_fmap, running_count by done.
    unfold getWaitingEventCount. lia. }
  fields. split; [|split; [|split; [|done]]].
  - intros p Hp. split; [by apply outstanding_unlogged|]. split.
    + intros Hnone. rewrite lookup_settle_each, Hnone. by rewrite decide_True.
    + intros Hc. pose proof (Sound_reachable n ops Hc) as So. fold s in So.
      apply elem_of_app in Hp
        as [(c & -> & Hin)%list_elem_of_fmap|(h & -> & Hh)%list_elem_of_fmap].
      * by destruct (inv_queue_pending _ I c Hin).
      * destruct (Inv_running s I) as [_ Hl]. rewrite Forall_forall in Hl.
        by apply (sound_flight _ So (cl_worker h)), Hl.
  - intros p x Hx. by rewrite lookup_settle_each, Hx.
  - intros p Hp. rewrite lookup_settle_each.
    case_match; [done|]. by rewrite decide_False.
Qed.

(** X17. When a busy worker reports an error, its handler first runs
    [onFinish]: the worker is put back on [freeWorkers] and the queue is
    served from there.  If nobody waits, or if the arguments of the oldest
    waiting call can be cloned, the handler returns and [reject] is called
    once, with the reported error, for the promise of the call that worker
    was running; nothing is resolved.  If those arguments cannot be cloned,
    the handler is left by the exception of [postMessage] before [reject]:
    no promise changes and nothing is logged as settled.  Either way the
    worker ends free when nobody waited and otherwise holds the handlers of
    the oldest waiting call, which has left the queue and was posted to it;
    and before [dispose] the free and the running count still add up to the
    size of the pool, with no free worker while a call waits. *)
Theorem worker_error_rejects_its_call (n : nat) (ops : list (op JSVal))
    (w : worker) (err : JSVal) (h : closure) :
  live ops ->
  let s := run ops (fresh n) in
  onerror s !! w = Some h ->
  let p := cl_promise h in
  let r := step s (Failure w err) in
  let s' := state_of r in
  (queue s = [] \/
   (exists c q, queue s = c :: q /\ forallb clonable (call_args c) = true) ->
   r = Done s' /\
   promises s' = settle_map p (Rejected (WorkerError err)) (promises s) /\
   rejections (since s s') = [(p, WorkerError err)] /\
   resolutions (since s s') = []) /\
  (forall c q, queue s = c :: q -> forallb clonable (call_args c) = false ->
   r = Raised s' /\
   promises s' = promises s /\
   rejections (since s s') = [] /\
   resolutions (since s s') = []) /\
  (queue s = [] ->
   queue s' = [] /\ freeWorkers s' = freeWorkers s ++ [w] /\
   onerror s' !! w = None /\
   since s s' = [EvDetach w; EvReject p (WorkerError err)]) /\
  (forall c q, queue s = c :: q ->
   queue s' = q /\ freeWorkers s' = [] /\
   onerror s' !! w = Some (Closure w (call_promise c)) /\
   take 3 (since s s') =
     [EvDetach w; EvAttach w (call_promise c); EvPost w (call_args c)]) /\
  getFreeWorkerCount s' + getRunningWorkerCount s' = Z.of_nat n /\
  (0 < getWaitingEventCount s' -> getFreeWorkerCount s' = 0) /\
  (clonable_ops ops ->
   r = Done s' /\ promises s !! p = None /\
   promises s' = <[p := Rejected (WorkerError err)]> (promises s)).
Proof.
  intros L s Hh p r s'. pose proof (Inv_reachable n ops) as I. fold s in I.
  destruct (notified s (Failure w err) w h I eq_refl Hh)
    as (out & e & [= <-] & [= <-] & Hn).
  fold p r in Hn.
  pose proof (Inv_reachable n (ops ++ [Failure w err])) as I'.
  rewrite run_snoc in I'. fold s r s' in I'.
  assert (live (ops ++ [Failure w err])) as L' by (by apply live_snoc).
  pose proof (live_workers n _ L') as W'.
  rewrite run_snoc in W'. fold s r s' in W'.
  split; [|split; [|split; [|split; [|split; [|split]]]]].
  - intros [Q|(c & q & Q & C)].
    + rewrite Q in Hn. subst s'. rewrite Hn. cbn [state_of]. fields.
      split; [done|]. split; [done|].
      by rewrite (since_app _ _ [EvDetach w; EvReject p (WorkerError err)]).
    + rewrite Q, C in Hn. destruct Hn as [F Hn].
      subst s'. rewrite Hn. cbn [state_of]. fields.
      split; [done|]. split; [done|].
      by rewrite (since_app _ _ [EvDetach w; EvAttach w (call_promise c);
                                 EvPost w (call_args c);
                                 EvReject p (WorkerError err)]).
  - intros c q Q C. rewrite Q, C in Hn. destruct Hn as [F Hn].
    subst s'. rewrite Hn. cbn [state_of]. fields.
    split; [done|]. split; [done|].
    by rewrite (since_app _ _ [EvDetach w; EvAttach w (call_promise c);
                               EvPost w (call_args c)]).
  - intros Q. rewrite Q in Hn. subst s'. rewrite Hn. cbn [state_of]. fields.
    split; [done|]. split; [done|]. split; [by rewrite lookup_delete_eq|].
    by apply since_app.
  - intros c q Q. rewrite Q in Hn. destruct Hn as [F Hn].
    subst s'. rewrite Hn.
    destruct (forallb clonable (call_args c)); cbn [state_of]; fields;
      (split; [done|]); (split; [done|]);
      (split; [by rewrite lookup_insert_eq|]);
      (erewrite since_app; [|done]); done.
  - unfold getFreeWorkerCount, getRunningWorkerCount.
    rewrite W', length_seq. lia.
  - intros Hq. unfold getWaitingEventCount, getFreeWorkerCount in *.
    rewrite (inv_no_wait _ I'); [done|].
    intros Q. rewrite Q in Hq. cbn in Hq. lia.
  - intros Hc. pose proof (Sound_reachable n ops Hc) as So. fold s in So.
    pose proof (sound_flight _ So _ _ Hh) as Hp. fold p in Hp.
    destruct (queue s) as [|c q] eqn:Q.
    + subst s'. rewrite Hn. cbn [state_of]. fields.
      split; [done|]. split; [done|]. by apply settle_map_pending.
    + rewrite (sound_queue _ So c) in Hn by (rewrite Q; apply list_elem_of_here).
      destruct Hn as [F Hn]. subst s'. rewrite Hn. cbn [state_of]. fields.
      split; [done|]. split; [done|]. by apply settle_map_pending.
Qed.

(** X18. [dispatch] of arguments that cannot be cloned, on a pool with a
    free worker: [start] has taken the worker off the free list and
    installed the handlers when [postMessage] raises, and nothing undoes
    it.  The promise returned is rejected with the clone error; the worker
    stays off the free list with the handlers of that call, so the running
    count has grown by one and the free count has shrunk by one although
    no call runs.  A later [dispose] calls [reject] for that promise, which
    keeps its clone error. *)
Theorem refused_post_leaks_worker (n : nat) (ops : list (op JSVal))
    (args : list JSVal) (r : list worker) (w : worker) :
  let s := run ops (fresh n) in
  freeWorkers s = r ++ [w] ->
  forallb clonable args = false ->
  let p := next_promise s in
  let s' := dispatch args s in
  promises s !! p = None /\
  promises s' = <[p := Rejected DataCloneError]> (promises s) /\
  since s s' = [EvAttach w p; EvPost w args] /\
  queue s' = [] /\
  freeWorkers s' = r /\
  onmessage s' !! w = Some (Closure w p) /\
  onerror s' !! w = Some (Closure w p) /\
  getFreeWorkerCount s' = getFreeWorkerCount s - 1 /\
  getRunningWorkerCount s' = getRunningWorkerCount s + 1 /\
  getWaitingEventCount s' = 0 /\
  exists s2,
    dispose s' = Done s2 /\
    (p, ThreadpoolDisposed) ∈ rejections (since s' s2) /\
    promises s2 !! p = Some (Rejected DataCloneError).
Proof.
  intros s F C p s'. pose proof (Inv_reachable n ops) as I. fold s in I.
  pose proof (fresh_promise_pending s I) as Hp. fold p in Hp.
  pose proof (Inv_dispatch args s I) as I'. fold s' in I'.
  assert (queue s = []) as Q.
  { destruct (queue s) eqn:Q; [done|].
    rewrite (inv_no_wait _ I) in F; [|by rewrite Q]. by destruct r. }
  assert (s' = Pool [] r (workers s)
                    (<[w := Closure w p]> (onmessage s))
                    (<[w := Closure w p]> (onerror s))
                    (<[p := Rejected DataCloneError]> (promises s))
                    (S p) (trace s ++ [EvAttach w p; EvPost w args])) as Hs'.
  { subst s'. rewrite (dispatch_assigned _ _ r w), C, Q by done.
    by rewrite settle_map_pending. }
  split; [done|].
  assert (onerror s' !! w = Some (Closure w p)) as Hh.
  { rewrite Hs'. fields. by rewrite lookup_insert_eq. }
  assert (promises s' !! p = Some (Rejected DataCloneError)) as Hrej.
  { rewrite Hs'. fields. by rewrite lookup_insert_eq. }
  split; [by rewrite Hs'|].
  split; [apply since_app; by rewrite Hs'|].
  split; [by rewrite Hs'|]. split; [by rewrite Hs'|].
  split; [by rewrite (inv_handlers _ I')|]. split; [done|].
  unfold getFreeWorkerCount, getRunningWorkerCount, getWaitingEventCount.
  split; [rewrite Hs', F, length_app; fields; cbn [length]; lia|].
  split; [rewrite Hs', F, length_app; fields; cbn [length]; lia|].
  split; [by rewrite Hs'|].
  eexists. split; [by apply dispose_eq|]. fields.
  rewrite (since_app _ _ (dispose_log s')) by done.
  rewrite rejections_dispose_log by done. split.
  - apply (list_elem_of_fmap_2 (fun p0 : promise => (p0, ThreadpoolDisposed))).
    rewrite elem_of_app. right. apply flying_inflight; [done|].
    by exists w, (Closure w p).
  - by rewrite lookup_settle_each, Hrej.
Qed.

(** X19. An operation is left by an exception in one case only: a
    notification of a worker that holds handlers while the arguments of the
    oldest waiting call cannot be cloned.  [dispatch] and [dispose] always
    return, and as long as every argument dispatched could be cloned every
    operation returns. *)
Theorem step_raises_only_on_unclonable_head (n : nat) (ops : list (op JSVal))
    (o : op JSVal) :
  let s := run ops (fresh n) in
  ((exists s', step s o = Raised s') <->
   exists w h c q,
     settles o w /\ onerror s !! w = Some h /\ queue s = c :: q /\
     forallb clonable (call_args c) = false) /\
  (clonable_ops ops -> exists s', step s o = Done s').
Proof.
  intros s. pose proof (Inv_reachable n ops) as I. fold s in I.
  pose proof (step_effect s o I) as E.
  assert ((exists s', step s o = Raised s') ->
          exists w h c q,
            settles o w /\ onerror s !! w = Some h /\ queue s = c :: q /\
            forallb clonable (call_args c) = false) as Hraise.
  { intros [s' Hs']. rewrite Hs' in E. inversion E; subst.
    by eexists _, _, _, _. }
  split; [split; [done|]|].
  - intros (w & h & c & q & So & Hh & Q & C).
    destruct (notified s o w h I So Hh) as (out & e & _ & _ & Hn).
    rewrite Q, C in Hn. destruct Hn as [_ ->]. by eexists.
  - intros Hc. pose proof (Sound_reachable n ops Hc) as So. fold s in So.
    destruct (step s o) as [s'|s'] eqn:Hs; [by eexists|].
    destruct Hraise as (w & h & c & q & _ & _ & Q & C); [by eexists|].
    rewrite (sound_queue _ So c) in C by (rewrite Q; apply list_elem_of_here).
    done.
Qed.

(** X20. The guard of the constructor.  It raises its size error, before
    any worker is created, exactly when [size < 1] holds as JavaScript
    compares numbers; for an integer that is when it is not positive, so 0
    and -1 are refused, and no positive integer is.  Any other size that
    [Array.from] can take passes the guard, an integer or not, and
    [ToLength size] workers are created, all of them free.  An omitted size
    stands for [hardwareConcurrency - 1]. *)
Theorem construct_size_guard (hc : Z) (fn : JSVal) (size : jsnum) :
  (constructor hc fn (Some size) = ([], inl SizeRangeError) <->
   lt_one size = true) /\
  (forall q, size = Num q -> (lt_one size = true <-> (q < 1)%Q)) /\
  (forall z, size = Num (inject_Z z) -> (lt_one size = true <-> z <= 0)) /\
  (lt_one size = true -> ~ is_positive_integer size) /\
  (lt_one size = false -> to_length size <= 2 ^ 32 - 1 ->
   constructor hc fn (Some size) =
     (seq 0 (Z.to_nat (to_length size)),
      inr (fresh (Z.to_nat (to_length size))))) /\
  constructor hc fn (Some (Num 0)) = ([], inl SizeRangeError) /\
  constructor hc fn (Some (Num (-1))) = ([], inl SizeRangeError) /\
  constructor hc fn None = constructor hc fn (Some (Num (inject_Z (hc - 1)))).
Proof.
  split; [|split; [|split; [|split; [|split; [|done]]]]].
  - unfold constructor. cbn [default from_option id].
    destruct (lt_one size); [by split|].
    split; [|done]. destruct (_ <? _); intros [=].
  - intros q ->. apply lt_one_Num.
  - intros z ->. apply lt_one_integer.
  - destruct size as [q| | |]; [|by intros _ []..].
    intros Hlt (z & Hz & Hq). apply lt_one_Num in Hlt.
    rewrite Hq in Hlt. unfold Qlt in Hlt. cbn in Hlt. lia.
  - intros Hg Hlen. unfold constructor. cbn [default from_option id]. rewrite Hg.
    destruct (Z.ltb_spec (2 ^ 32 - 1) (to_length size)); [lia|done].
Qed.

(** *** A call whose handler was left by an exception *)

Lemma inflight_flying s (p : promise) : Inv s -> p ∈ inflight s -> flying s p.
Proof.
  intros I (h & -> & Hh)%list_elem_of_fmap.
  destruct (Inv_running s I) as [_ Hl]. rewrite Forall_forall in Hl.
  exists (cl_worker h), h. split; [by apply Hl|done].
Qed.

Lemma lost_effect s o r (p : promise) :
  Inv s -> lost s p -> effect s o r -> lost (state_of r) p.
Proof.
  intros I (Hlt & Hp & Hq & Hf) E. unfold lost, waiting, flying in *.
  destruct E as [args F|args r w F Q Hw C|args r w F Q Hw C
                |o w h out e So Hh Ho He Q|o w h out e c q So Hh Ho He Q F C
                |o w h c q So Hh Q F C|o w So Hh|]; cbn [state_of]; fields.
  - split; [lia|]. split; [done|]. split; [|done].
    rewrite fmap_app, elem_of_app. cbn. rewrite list_elem_of_singleton.
    intros [?|?]; [done|lia].
  - split; [lia|]. split; [done|]. split; [apply not_elem_of_nil|].
    intros (w' & h' & Hh' & Hp'). rewrite lookup_insert in Hh'.
    case_decide; [injection Hh' as <-; cbn in Hp'; lia|].
    apply Hf. by exists w', h'.
  - split; [lia|]. split; [rewrite lookup_insert_ne; [done|lia]|].
    split; [apply not_elem_of_nil|].
    intros (w' & h' & Hh' & Hp'). rewrite lookup_insert in Hh'.
    case_decide; [injection Hh' as <-; cbn in Hp'; lia|].
    apply Hf. by exists w', h'.
  - split; [done|]. split.
    { rewrite lookup_settle_map, Hp. rewrite decide_False; [done|].
      intros Heq. apply Hf. by exists w, h. }
    split; [apply not_elem_of_nil|].
    intros (w' & h' & Hh' & Hp'). rewrite lookup_delete in Hh'.
    case_decide; [done|]. apply Hf. by exists w', h'.
  - rewrite Q in Hq. cbn in Hq. apply not_elem_of_cons in Hq as [Hpc Hpq].
    split; [done|]. split.
    { rewrite lookup_settle_map, Hp. rewrite decide_False; [done|].
      intros Heq. apply Hf. by exists w, h. }
    split; [done|].
    intros (w' & h' & Hh' & Hp'). rewrite lookup_insert in Hh'.
    case_decide; [injection Hh' as <-; cbn in Hp'; congruence|].
    rewrite lookup_delete_ne in Hh' by done. apply Hf. by exists w', h'.
  - rewrite Q in Hq. cbn in Hq. apply not_elem_of_cons in Hq as [Hpc Hpq].
    split; [done|]. split; [done|]. split; [done|].
    intros (w' & h' & Hh' & Hp'). rewrite lookup_insert in Hh'.
    case_decide; [injection Hh' as <-; cbn in Hp'; congruence|].
    rewrite lookup_delete_ne in Hh' by done. apply Hf. by exists w', h'.
  - done.
  - split; [done|]. split.
    { rewrite lookup_settle_each, Hp. rewrite decide_False; [done|].
      rewrite elem_of_app. intros [?|?]; [done|].
      by apply Hf, inflight_flying. }
    split; [apply not_elem_of_nil|].
    intros (w' & h' & Hh' & _). by rewrite lookup_empty in Hh'.
Qed.

Lemma lost_run (ops : list (op JSVal)) s (p : promise) :
  Inv s -> lost s p -> lost (run ops s) p.
Proof.
  intros I Hl. induction ops as [|o ops IH] using rev_ind; [done|].
  rewrite run_snoc. apply (lost_effect (run ops s) o); [|done|].
  - by apply Inv_run.
  - by apply step_effect, Inv_run.
Qed.

(** The handler that was left before it settled its promise has lost it. *)
Lemma raised_handler_lost s o w h c q :
  Inv s -> settles o w -> onerror s !! w = Some h -> queue s = c :: q ->
  forallb clonable (call_args c) = false ->
  promises s !! cl_promise h = None ->
  lost (state_of (step s o)) (cl_promise h).
Proof.
  intros I So Hh Q C Hp.
  destruct (notified s o w h I So Hh) as (out & e & _ & _ & Hn).
  rewrite Q, C in Hn. destruct Hn as [_ ->]. cbn [state_of].
  destruct (inv_flight _ I _ _ Hh) as (Hlt & Hnq & _).
  rewrite Q in Hnq. cbn in Hnq. apply not_elem_of_cons in Hnq as [Hpc Hpq].
  unfold lost, waiting, flying. fields.
  split; [done|]. split; [done|]. split; [done|].
  intros (w' & h' & Hh' & Hp'). rewrite lookup_insert in Hh'.
  case_decide as D; [injection Hh' as <-; cbn in Hp'; congruence|].
  rewrite lookup_delete_ne in Hh' by done.
  apply D. by apply (inv_flight_inj _ I w w' h h').
Qed.

(** X21. The call whose handler was left by the exception of [postMessage]
    is lost: if its promise was pending, it stays pending whatever is
    dispatched, notified or disposed afterwards, and neither [resolve] nor
    [reject] is ever called for it. *)
Theorem unsettled_call_is_lost (n : nat) (ops : list (op JSVal))
    (o : op JSVal) (w : worker) (h : closure) (c : call JSVal)
    (q : list (call JSVal)) :
  let s := run ops (fresh n) in
  settles o w ->
  onerror s !! w = Some h ->
  queue s = c :: q ->
  forallb clonable (call_args c) = false ->
  promises s !! cl_promise h = None ->
  forall ops' : list (op JSVal),
    let s' := run ops' (state_of (step s o)) in
    promises s' !! cl_promise h = None /\
    (cl_promise h ∉ settlements (trace s')) /\
    ~ waiting s' (cl_promise h) /\ ~ flying s' (cl_promise h).
Proof.
  intros s So Hh Q C Hp ops' s'.
  pose proof (Inv_reachable n ops) as I. fold s in I.
  pose proof (Inv_step s o I) as I1.
  pose proof (Inv_run ops' _ I1) as I'. fold s' in I'.
  pose proof (raised_handler_lost s o w h c q I So Hh Q C Hp) as Hl.
  apply (lost_run ops') in Hl; [|done]. fold s' in Hl.
  destruct Hl as (_ & Hp' & Hq' & Hf').
  split; [done|]. split; [|done].
  intros Hin. destruct (proj2 (inv_once _ I') _ Hin) as [x Hx]. congruence.
Qed.

End Further.

(** ** Concrete runs *)

Open Scope nat_scope.

Example two_queued_trace :
  trace (run two_queued (fresh 1)) =
    [EvAttach 0 0; EvPost 0 [10];
     EvQueued 1; EvQueued 2].
Proof. reflexivity. Qed.

Example one_served_trace :
  since (run two_queued (fresh 1)) (run one_served (fresh 1)) =
    [EvDetach 0; EvAttach 0 1; EvPost 0 [11];
     EvResolve 0 5].
Proof. reflexivity. Qed.

Example dispose_trace :
  since (run one_served (fresh 1))
        (state_of (dispose (run one_served (fresh 1)))) =
    [EvReject 2 ThreadpoolDisposed;
     EvTerminate 0; EvDetach 0; EvReject 1 ThreadpoolDisposed].
Proof. reflexivity. Qed.

Example lifo_workers :
  posts (trace (run [Dispatch [1]; Dispatch [2]; Message 2 0;
                     Message 1 0; Dispatch [3]] (fresh 3))) =
    [2; 1; 1].
Proof. reflexivity. Qed.

Lemma queue_fifo_workers_lifo_witness :
  live one_served /\
  filter (fun p => p ∈ enqueued (trace (run one_served (fresh 1))))
         (assigned (trace (run one_served (fresh 1)))) ++
    (call_promise <$> queue (run one_served (fresh 1))) =
  enqueued (trace (run one_served (fresh 1))).
Proof.
  split; [reflexivity|].
  exact (proj1 (queue_fifo_workers_lifo 1 one_served eq_refl)).
Defined.

Lemma waiting_implies_no_free_worker_witness :
  (0 < getWaitingEventCount (run two_queued (fresh 1)))%Z /\
  getFreeWorkerCount (run two_queued (fresh 1)) = 0%Z.
Proof.
  split; [reflexivity|].
  apply (waiting_implies_no_free_worker 1 two_queued). reflexivity.
Defined.

Lemma free_plus_running_is_size_witness :
  live one_served /\
  (getFreeWorkerCount (run one_served (fresh 4)) +
    getRunningWorkerCount (run one_served (fresh 4)) = 4)%Z.
Proof.
  split; [reflexivity|].
  exact (proj1 (free_plus_running_is_size 4 one_served eq_refl)).
Defined.

Lemma dispatch_after_dispose_waits_witness :
  disposed (two_queued ++ [Dispose]) /\
  promises (dispatch [13] (run (two_queued ++ [Dispose]) (fresh 1)))
    !! next_promise (run (two_queued ++ [Dispose]) (fresh 1)) = None.
Proof.
  split; [reflexivity|].
  exact (proj1 (proj2 (proj2
           (dispatch_after_dispose_waits 1 (two_queued ++ [Dispose]) [13]
              eq_refl)))).
Defined.

(** C8 as stated fails: after [dispose], the promise returned by [dispatch]
    is not rejected; its call sits in the queue. *)
Lemma dispatch_after_dispose_not_rejected :
  let s := run [Dispose] (fresh (JSVal := nat) 2) in
  let s' := dispatch [7] s in
  ~ (exists r, promises s' !! next_promise s = Some (Rejected r)) /\
  queue s' = [Call (next_promise s) [7]].
Proof. split; [|reflexivity]. intros [r H]. discriminate H. Qed.


(** C5 fails at [size = 1.5] and at [size = NaN], neither of them a
    positive integer: the guard [size < 1] lets both through, and the
    constructor returns a pool with one worker, resp. with none, on which
    every call waits. *)
Theorem construct_accepts_fraction :
  ~ is_positive_integer (Num (3 # 2)) /\
  ~ is_positive_integer NaN /\
  constructor 4%Z 0 (Some (Num (3 # 2))) = ([0], inr (fresh 1)) /\
  constructor 4%Z 0 (Some NaN) = ([], inr (fresh 0)) /\
  queue (dispatch [7] (fresh 0)) = [Call 0 [7]] /\
  getWaitingEventCount (dispatch [7] (fresh 0)) = 1%Z.
Proof.
  split; [|split; [by intros []|]].
  2: { do 3 (split; [vm_compute; reflexivity|]). vm_compute; reflexivity. }
  intros (z & _ & Hz). unfold Qeq in Hz. cbn in Hz. lia.
Qed.

(** C6 fails on a pool of one worker after [dispatch(10)] and
    [dispatch(() => 1)], when the worker reports an error: [onFinish]
    starts the waiting call, [postMessage] raises, and the handler is left
    before [reject].  No future is rejected with the reported error;
    promise 0 stays pending for ever, and the worker is not returned to
    the free list but holds the handlers of a call it never got. *)
Theorem worker_error_with_unclonable_head :
  let s := run unclonable_head (fresh 1) in
  let r := step s (Failure 0 (Number 7)) in
  let s' := state_of r in
  onerror s !! 0 = Some (Closure 0 0) /\
  queue s = [Call 1 [Arrow]] /\
  promises s = ∅ /\
  r = Raised s' /\
  since s s' = [EvDetach 0; EvAttach 0 1; EvPost 0 [Arrow]] /\
  rejections (since s s') = [] /\
  promises s' = ∅ /\
  freeWorkers s' = [] /\
  onerror s' !! 0 = Some (Closure 0 1) /\
  getRunningWorkerCount s' = 1%Z /\
  forall ops' : list (op sample),
    promises (run ops' s') !! 0 = None /\
    (0 ∉ settlements (trace (run ops' s'))).
Proof.
  intros s r s'. do 10 (split; [vm_compute; reflexivity|]). intros ops'.
  assert (Inv s) as I by apply Inv_reachable.
  assert (Inv (run ops' s')) as I' by apply Inv_run, Inv_step, I.
  pose proof (raised_handler_lost s (Failure 0 (Number 7)) 0 (Closure 0 0)
                (Call 1 [Arrow]) [] I eq_refl eq_refl eq_refl eq_refl eq_refl)
    as Hl.
  apply (lost_run ops') in Hl; [|apply Inv_step, I].
  destruct Hl as (_ & Hp & _).
  change (promises (run ops' s') !! 0 = None) in Hp. split; [exact Hp|].
  intros Hin. destruct (proj2 (inv_once _ I') _ Hin) as [x Hx].
  assert (Some x = None) as Habs by (rewrite <- Hx; exact Hp).
  discriminate Habs.
Qed.

(** C7 fails in the same state when the worker posts its result: the
    handler detaches, takes the oldest waiting call, attaches it to the
    same worker and calls [postMessage], which raises; the future of the
    call that just completed is not settled with its value, then or
    later. *)
Theorem message_with_unclonable_head :
  let s := run unclonable_head (fresh 1) in
  let r := step s (Message 0 (Number 5)) in
  let s' := state_of r in
  onmessage s !! 0 = Some (Closure 0 0) /\
  queue s = [Call 1 [Arrow]] /\
  promises s = ∅ /\
  r = Raised s' /\
  since s s' = [EvDetach 0; EvAttach 0 1; EvPost 0 [Arrow]] /\
  resolutions (since s s') = [] /\
  promises s' = ∅ /\
  queue s' = [] /\
  freeWorkers s' = [] /\
  onmessage s' !! 0 = Some (Closure 0 1) /\
  forall ops' : list (op sample),
    promises (run ops' s') !! 0 = None /\
    (0 ∉ settlements (trace (run ops' s'))).
Proof.
  intros s r s'. do 10 (split; [vm_compute; reflexivity|]). intros ops'.
  assert (Inv s) as I by apply Inv_reachable.
  assert (Inv (run ops' s')) as I' by apply Inv_run, Inv_step, I.
  pose proof (raised_handler_lost s (Message 0 (Number 5)) 0 (Closure 0 0)
                (Call 1 [Arrow]) [] I eq_refl eq_refl eq_refl eq_refl eq_refl)
    as Hl.
  apply (lost_run ops') in Hl; [|apply Inv_step, I].
  destruct Hl as (_ & Hp & _).
  change (promises (run ops' s') !! 0 = None) in Hp. split; [exact Hp|].
  intros Hin. destruct (proj2 (inv_once _ I') _ Hin) as [x Hx].
  assert (Some x = None) as Habs by (rewrite <- Hx; exact Hp).
  discriminate Habs.
Qed.

(** Inputs at which the further properties apply. *)

Lemma message_resolves_its_call_witness :
  onmessage (run two_queued (fresh 1)) !! 0 = Some (Closure 0 0) /\
  exists s',
    step (run two_queued (fresh 1)) (Message 0 5) = Done s' /\
    since (run two_queued (fresh 1)) s' =
      [EvDetach 0; EvAttach 0 1; EvPost 0 [11]; EvResolve 0 5] /\
    queue s' = [Call 2 [12]].
Proof.
  assert (onmessage (run two_queued (fresh 1)) !! 0 = Some (Closure 0 0))
    as Hm by reflexivity.
  split; [exact Hm|].
  pose proof (message_resolves_its_call 1 two_queued 0 5 (Closure 0 0) Hm)
    as (_ & Hnext & _).
  destruct (Hnext (Call 1 [11]) [Call 2 [12]] eq_refl eq_refl)
    as (s' & Hs & _ & Ht & Hq & _).
  exists s'. split; [exact Hs|]. split; [exact Ht|exact Hq].
Defined.

Lemma idle_worker_notification_ignored_witness :
  (0 ∈ freeWorkers (run (one_served ++ [Message 0 6; Message 0 7])
                        (fresh 1)) \/
   0 ∉ workers (run (one_served ++ [Message 0 6; Message 0 7]) (fresh 1))) /\
  onmessage (run one_served (fresh 1)) !! 0 = Some (Closure 0 1) /\
  onmessage (run (one_served ++ [Message 0 6; Message 0 7]) (fresh 1)) !! 0 =
    None /\
  step (run (one_served ++ [Message 0 6; Message 0 7]) (fresh 1))
       (Message 0 8) =
    Done (run (one_served ++ [Message 0 6; Message 0 7]) (fresh 1)).
Proof.
  assert (0 ∈ freeWorkers (run (one_served ++ [Message 0 6; Message 0 7])
                               (fresh 1)) \/
          0 ∉ workers (run (one_served ++ [Message 0 6; Message 0 7])
                           (fresh 1))) as H
    by (left; vm_compute; apply list_elem_of_here).
  split; [exact H|]. split; [reflexivity|].
  destruct (idle_worker_notification_ignored 1
              (one_served ++ [Message 0 6; Message 0 7]) 0 H)
    as (Hm & _ & Hs).
  split; [exact Hm|]. exact (proj1 (Hs 8 8)).
Defined.

Lemma every_call_accounted_witness :
  clonable_ops one_served /\
  (1 < next_promise (run one_served (fresh 1))) /\
  flying (run one_served (fresh 1)) 1.
Proof.
  assert (clonable_ops one_served) as Hc by reflexivity.
  assert (1 < next_promise (run one_served (fresh 1))) as Hlt
    by (vm_compute; lia).
  split; [exact Hc|]. split; [exact Hlt|].
  destruct (proj1 (proj2 (proj2 (proj2
              (every_call_accounted 1 one_served 1))) Hc) Hlt)
    as [Hs|[Hq|Hf]].
  - destruct Hs as [x Hx]. discriminate Hx.
  - exfalso. vm_compute in Hq.
    apply list_elem_of_singleton in Hq. discriminate Hq.
  - exact Hf.
Defined.

Lemma calls_start_in_dispatch_order_witness :
  live one_served /\
  posted (trace (run one_served (fresh 1))) ++
    (call_args <$> queue (run one_served (fresh 1))) = dispatched one_served.
Proof.
  split; [reflexivity|].
  exact (proj1 (calls_start_in_dispatch_order 1 one_served eq_refl)).
Defined.

Lemma dispatched_calls_are_conserved_witness :
  clonable_ops one_served /\
  (Z.of_nat (next_promise (run one_served (fresh 1))) =
   getWaitingEventCount (run one_served (fresh 1)) +
   getRunningWorkerCount (run one_served (fresh 1)) +
   Z.of_nat (length (settlements (trace (run one_served (fresh 1))))))%Z.
Proof.
  assert (clonable_ops one_served) as Hc by reflexivity.
  split; [exact Hc|].
  exact (proj2 (dispatched_calls_are_conserved 1 one_served Hc)).
Defined.

Lemma dispose_terminates_every_worker_witness :
  live one_served /\
  terminations (since (run one_served (fresh 3))
                      (state_of (dispose (run one_served (fresh 3))))) ≡ₚ
    seq 0 3.
Proof.
  split; [reflexivity|].
  exact (proj1 (proj2 (proj2
           (dispose_terminates_every_worker 3 one_served eq_refl)))).
Defined.

Lemma disposal_is_final_witness :
  disposed (two_queued ++ [Dispose]) /\
  posts (since (run (two_queued ++ [Dispose]) (fresh 1))
               (run one_served (run (two_queued ++ [Dispose]) (fresh 1)))) = [].
Proof.
  split; [reflexivity|].
  exact (proj1 (proj2 (proj2
           (disposal_is_final 1 (two_queued ++ [Dispose]) one_served
              eq_refl)))).
Defined.

Lemma dispatch_then_message_restores_pool_witness :
  freeWorkers (run [Dispatch [1]; Message 1 0] (fresh 2)) = [0] ++ [1] /\
  forallb clonable [7] = true /\
  exists s2,
    step (dispatch [7] (run [Dispatch [1]; Message 1 0] (fresh 2)))
         (Message 1 9) = Done s2 /\
    freeWorkers s2 = [0; 1] /\
    promises s2 !! 1 = Some (Fulfilled 9).
Proof.
  assert (freeWorkers (run [Dispatch [1]; Message 1 0] (fresh 2)) =
          [0] ++ [1]) as F by reflexivity.
  assert (forallb clonable [7] = true) as C by reflexivity.
  split; [exact F|]. split; [exact C|].
  destruct (dispatch_then_message_restores_pool 2 [Dispatch [1]; Message 1 0]
              [7] 9 [0] 1 F C)
    as (s2 & Hs & _ & _ & Hp & _ & Hf & _).
  exists s2. split; [exact Hs|]. split; [exact Hf|].
  rewrite Hp. reflexivity.
Defined.

Lemma constructed_pool_size_witness :
  constructor 4%Z 0 (Some (Num (5 # 2))) = ([0; 1], inr (fresh 2)) /\
  Z.of_nat (length [0; 1]) = to_length (Num (5 # 2)).
Proof.
  split; [reflexivity|].
  exact (proj1 (proj2 (proj2 (proj2
           (constructed_pool_size 4%Z 0 (Num (5 # 2)) [0; 1] (fresh 2)
              eq_refl))))).
Defined.

Lemma workers_are_free_or_listening_witness :
  onerror (run one_served (fresh 1)) !! 0 = Some (Closure 0 1) /\
  clonable_ops one_served /\
  promises (run one_served (fresh 1)) !! 1 = None /\
  ~ waiting (run one_served (fresh 1)) 1.
Proof.
  assert (onerror (run one_served (fresh 1)) !! 0 = Some (Closure 0 1))
    as Hh by reflexivity.
  assert (clonable_ops one_served) as Hc by reflexivity.
  split; [exact Hh|]. split; [exact Hc|].
  destruct (proj1 (proj2 (workers_are_free_or_listening 1 one_served 0))
              (Closure 0 1) Hh)
    as (_ & _ & _ & _ & Hq & _ & Hp).
  split; [exact (Hp Hc)|exact Hq].
Defined.

Lemma worker_error_rejects_its_call_witness :
  live two_queued /\
  onerror (run two_queued (fresh 1)) !! 0 = Some (Closure 0 0) /\
  step (run two_queued (fresh 1)) (Failure 0 7) =
    Done (state_of (step (run two_queued (fresh 1)) (Failure 0 7))) /\
  rejections (since (run two_queued (fresh 1))
                    (state_of (step (run two_queued (fresh 1)) (Failure 0 7))))
    = [(0, WorkerError 7)] /\
  queue (state_of (step (run two_queued (fresh 1)) (Failure 0 7))) =
    [Call 2 [12]].
Proof.
  assert (live two_queued) as L by reflexivity.
  assert (onerror (run two_queued (fresh 1)) !! 0 = Some (Closure 0 0))
    as Hh by reflexivity.
  split; [exact L|]. split; [exact Hh|].
  destruct (worker_error_rejects_its_call 1 two_queued 0 7 (Closure 0 0) L Hh)
    as (H1 & _ & _ & H4 & _).
  destruct H1 as (Hr & _ & Hj & _).
  { right. by exists (Call 1 [11]), [Call 2 [12]]. }
  split; [exact Hr|]. split; [exact Hj|].
  exact (proj1 (H4 (Call 1 [11]) [Call 2 [12]] eq_refl)).
Defined.

Lemma refused_post_leaks_worker_witness :
  freeWorkers (run [Dispatch [Number 1]; Message 1 (Number 0)] (fresh 2)) =
    [0] ++ [1] /\
  forallb clonable [Number 3; Arrow] = false /\
  promises (dispatch [Number 3; Arrow]
              (run [Dispatch [Number 1]; Message 1 (Number 0)] (fresh 2)))
    !! 1 = Some (Rejected DataCloneError) /\
  freeWorkers (dispatch [Number 3; Arrow]
                 (run [Dispatch [Number 1]; Message 1 (Number 0)] (fresh 2)))
    = [0].
Proof.
  assert (freeWorkers (run [Dispatch [Number 1]; Message 1 (Number 0)]
                           (fresh 2)) = [0] ++ [1]) as F by reflexivity.
  assert (forallb clonable [Number 3; Arrow] = false) as C by reflexivity.
  split; [exact F|]. split; [exact C|].
  destruct (refused_post_leaks_worker 2
              [Dispatch [Number 1]; Message 1 (Number 0)]
              [Number 3; Arrow] [0] 1 F C)
    as (_ & Hp & _ & _ & Hf & _).
  split; [|exact Hf]. rewrite Hp. reflexivity.
Defined.

Lemma unsettled_call_is_lost_witness :
  settles (Message 0 (Number 5)) 0 /\
  onerror (run unclonable_head (fresh 1)) !! 0 = Some (Closure 0 0) /\
  queue (run unclonable_head (fresh 1)) = [Call 1 [Arrow]] /\
  forallb clonable [Arrow] = false /\
  promises (run unclonable_head (fresh 1)) !! 0 = None /\
  promises (run [Dispatch [Number 1]; Message 0 (Number 2); Dispose]
              (state_of (step (run unclonable_head (fresh 1))
                              (Message 0 (Number 5))))) !! 0 = None.
Proof.
  assert (settles (Message 0 (Number 5)) 0) as So by reflexivity.
  assert (onerror (run unclonable_head (fresh 1)) !! 0 = Some (Closure 0 0))
    as Hh by reflexivity.
  assert (queue (run unclonable_head (fresh 1)) = [Call 1 [Arrow]])
    as Q by reflexivity.
  assert (forallb clonable [Arrow] = false) as C by reflexivity.
  assert (promises (run unclonable_head (fresh 1)) !! 0 = None)
    as Hp by reflexivity.
  split; [exact So|]. split; [exact Hh|]. split; [exact Q|].
  split; [exact C|]. split; [exact Hp|].
  exact (proj1 (unsettled_call_is_lost 1 unclonable_head
                  (Message 0 (Number 5)) 0 (Closure 0 0) (Call 1 [Arrow]) []
                  So Hh Q C Hp
                  [Dispatch [Number 1]; Message 0 (Number 2); Dispose])).
Defined.
